(** * commandflags: nested command/flag dispatch and its help renderer

    A shallow embedding of the Go package [commandflags] and of the parts of
    its collaborators that the package drives:

    - [flag]: the operations of Go's standard [flag.FlagSet] that the package
      calls ([Init], [Parse], [Args], [VisitAll], [SetOutput], the [Usage]
      field), following the standard library's documented behaviour;
    - class [Layout]: the text primitives of [fmt] and of the [refmt] module,
      which are not part of the package and are kept abstract;
    - the package in its current form ([ProcessArgs], [renderHelp]) and, in
      module [Legacy], in the earlier form of [commandflags.go]
      ([ProcessArgs], [autoHelp]).

    Flag sets are heap objects reached through [*flag.FlagSet]; the store maps
    addresses to flag sets, and a command holds an optional address (Go's
    [nil] is [None]).  Two commands may hold the same address. *)

From Stdlib Require Import ZArith Lia Ascii String.
From stdpp Require Import gmap strings list fin_maps sorting.

Local Open Scope Z_scope.

(** ** Machine integers *)

(** Go's [int] on the 64-bit targets: arithmetic wraps around. *)
Definition int_wrap (z : Z) : Z := (z + 2 ^ 63) `mod` 2 ^ 64 - 2 ^ 63.
Definition int_add (a b : Z) : Z := int_wrap (a + b).
Definition int_sub (a b : Z) : Z := int_wrap (a - b).

(** The line feed, ["\n"] in the source. *)
Definition LF : string := String "010"%char "".

(** [len(s)] of a Go string: its number of bytes. *)
Definition len (s : string) : Z := Z.of_nat (String.length s).

(** ** The [flag] package *)

(** The operations of [flag.FlagSet] that the package calls.  A flag set
    holds its flags by name ([formal]); the variable behind a flag is kept
    inside the flag ([Value_]), so that a flag set owns its values.  What the
    parser prints to the output stream is left out. *)
Module flag.

Inductive ErrorHandling := ContinueOnError | ExitOnError | PanicOnError.

(** The dynamic type of what a value's [Get] returns. *)
Inductive GoType :=
| TBool | TUint64 | TUint | TInt64 | TInt | TString | TFloat64
| TOther (type_name : string).

(** A [flag.Value]: the variable behind a flag.  [getter] is [None] when the
    value does not implement [flag.Getter]; [Set] maps the current content
    and the argument text to the new content and an optional error text. *)
Record Value := mkValue {
  getter : option GoType;
  IsBoolFlag : bool;
  content : string;
  Set_ : string → string → string * option string
}.

Record Flag := mkFlag {
  Name : string;
  Usage : string;
  Value_ : Value;
  DefValue : string
}.

Inductive UsageFunc := usage_default | usage_noop | usage_custom (tag : string).
Inductive Writer := os_Stderr | writer_buffer.

Record FlagSet := mkFlagSet {
  Usage_ : UsageFunc;
  name : string;
  parsed : bool;
  actual : gset string;
  formal : gmap string Flag;
  args : list string;
  errorHandling : ErrorHandling;
  output : option Writer
}.

Definition NewFlagSet (n : string) (eh : ErrorHandling) : FlagSet :=
  mkFlagSet usage_default n false ∅ ∅ [] eh None.

(** [f.Var(value, name, usage)]; redefining a flag panics ([None]). *)
Definition Var (v : Value) (n usage : string) (f : FlagSet) : option FlagSet :=
  match formal f !! n with
  | Some _ => None
  | None =>
      Some (mkFlagSet (Usage_ f) (name f) (parsed f) (actual f)
              (<[n := mkFlag n usage v (content v)]> (formal f))
              (args f) (errorHandling f) (output f))
  end.

Definition Init (n : string) (eh : ErrorHandling) (f : FlagSet) : FlagSet :=
  mkFlagSet (Usage_ f) n (parsed f) (actual f) (formal f) (args f) eh (output f).

Definition set_Usage (u : UsageFunc) (f : FlagSet) : FlagSet :=
  mkFlagSet u (name f) (parsed f) (actual f) (formal f) (args f)
    (errorHandling f) (output f).

Definition SetOutput (w : Writer) (f : FlagSet) : FlagSet :=
  mkFlagSet (Usage_ f) (name f) (parsed f) (actual f) (formal f) (args f)
    (errorHandling f) (Some w).

Definition set_args (a : list string) (f : FlagSet) : FlagSet :=
  mkFlagSet (Usage_ f) (name f) (parsed f) (actual f) (formal f) a
    (errorHandling f) (output f).

Definition Args (f : FlagSet) : list string := args f.

(** Errors of [parseOne]; [Legacy.error_text] is their [Error()]. *)
Inductive ParseError :=
| ErrHelp
| bad_flag_syntax (s : string)
| not_defined (n : string)
| invalid_boolean_value (value n err : string)
| invalid_boolean_flag (n err : string)
| needs_an_argument (n : string)
| invalid_value (value n err : string).

(** Splits at the first ['=']: the text before it and the text after. *)
Fixpoint cut_equals (s : string) : option (string * string) :=
  match s with
  | EmptyString => None
  | String c s' =>
      if Ascii.eqb c "="%char then Some (EmptyString, s')
      else match cut_equals s' with
           | Some (pre, post) => Some (String c pre, post)
           | None => None
           end
  end.

(** Stores the outcome of [flag.Value.Set(value)] for the flag [n]. *)
Definition store_value (n : string) (fl : Flag) (c : string) (f : FlagSet) : FlagSet :=
  let v := Value_ fl in
  mkFlagSet (Usage_ f) (name f) (parsed f) (actual f)
    (<[n := mkFlag (Name fl) (Usage fl)
              (mkValue (getter v) (IsBoolFlag v) c (Set_ v)) (DefValue fl)]> (formal f))
    (args f) (errorHandling f) (output f).

Definition mark_actual (n : string) (f : FlagSet) : FlagSet :=
  mkFlagSet (Usage_ f) (name f) (parsed f) ({[n]} ∪ actual f) (formal f) (args f)
    (errorHandling f) (output f).

(** One round of the parser: the flag set afterwards, whether a flag was
    seen, and the error. *)
Definition parseOne (f : FlagSet) : FlagSet * bool * option ParseError :=
  match args f with
  | [] => (f, false, None)
  | s :: rest =>
      match s with
      | String c0 (String c1 s2) =>
          if negb (Ascii.eqb c0 "-"%char) then (f, false, None)
          else if Ascii.eqb c1 "-"%char && String.eqb s2 ""
          then (set_args rest f, false, None)
          else
            let nm := if Ascii.eqb c1 "-"%char then s2 else String c1 s2 in
            match nm with
            | EmptyString => (f, false, Some (bad_flag_syntax s))
            | String n0 ntail =>
                if Ascii.eqb n0 "-"%char || Ascii.eqb n0 "="%char
                then (f, false, Some (bad_flag_syntax s))
                else
                  let f1 := set_args rest f in
                  let '(nm, hasValue, value) :=
                    match cut_equals ntail with
                    | Some (pre, post) => (String n0 pre, true, post)
                    | None => (nm, false, "")
                    end in
                  match formal f1 !! nm with
                  | None =>
                      if String.eqb nm "help" || String.eqb nm "h"
                      then (f1, false, Some ErrHelp)
                      else (f1, false, Some (not_defined nm))
                  | Some fl =>
                      let v := Value_ fl in
                      if IsBoolFlag v then
                        let arg := if hasValue then value else "true" in
                        let '(c, err) := Set_ v (content v) arg in
                        let f2 := store_value nm fl c f1 in
                        match err with
                        | Some e =>
                            (f2, false,
                             Some (if hasValue then invalid_boolean_value value nm e
                                   else invalid_boolean_flag nm e))
                        | None => (mark_actual nm f2, true, None)
                        end
                      else
                        match (if hasValue then Some (value, args f1)
                               else match args f1 with
                                    | a0 :: rest' => Some (a0, rest')
                                    | [] => None
                                    end) with
                        | None => (f1, false, Some (needs_an_argument nm))
                        | Some (value, rest') =>
                            let f2 := set_args rest' f1 in
                            let '(c, err) := Set_ v (content v) value in
                            let f3 := store_value nm fl c f2 in
                            match err with
                            | Some e => (f3, false, Some (invalid_value value nm e))
                            | None => (mark_actual nm f3, true, None)
                            end
                        end
                  end
            end
      | _ => (f, false, None)
      end
  end.

Inductive ParseResult :=
| parse_ok
| parse_error (e : ParseError)
| parse_exit
| parse_panic (e : ParseError).

(** The loop of [Parse]; every round that sees a flag removes at least one
    argument, so [S (length arguments)] rounds are enough
    ([parse_loop_enough] below). *)
Fixpoint parse_loop (rounds : nat) (f : FlagSet) : FlagSet * ParseResult :=
  match rounds with
  | O => (f, parse_ok)
  | S rounds' =>
      let '(f', seen, err) := parseOne f in
      if seen then parse_loop rounds' f'
      else match err with
           | None => (f', parse_ok)
           | Some e =>
               match errorHandling f' with
               | ContinueOnError => (f', parse_error e)
               | ExitOnError => (f', parse_exit)
               | PanicOnError => (f', parse_panic e)
               end
           end
  end.

Definition Parse (arguments : list string) (f : FlagSet) : FlagSet * ParseResult :=
  parse_loop (S (length arguments))
    (mkFlagSet (Usage_ f) (name f) true (actual f) (formal f) arguments
       (errorHandling f) (output f)).

(** [sortFlags]: the flags in lexicographical order of their names
    ([String.le] compares byte by byte). *)
Definition sortFlags (flags : gmap string Flag) : list Flag :=
  omap (λ n, flags !! n) (merge_sort String.le (elements (dom flags))).

Definition VisitAll (f : FlagSet) : list Flag := sortFlags (formal f).

End flag.

(** ** Text primitives of [fmt] and [refmt] *)

(** A [refmt.Style], with the two fields the package assigns. *)
Record Style := mkStyle { IndentWidth : Z; MaxWidth : Z }.

(** The formatting primitives the package calls but does not define:
    [Style.Wrap], [Style.Indent], [Style.Indent2] of a style made by
    [refmt.NewStyle] and given the two widths; the verbs ["%*s"], ["%-*s"]
    and ["%q"] of [fmt]; [FlagSet.PrintDefaults]. *)
Class Layout := {
  Wrap : Style → string → string;
  Indent : Style → string → string;
  Indent2 : Style → string → string;
  pad_left : Z → string → string;
  pad_right : Z → string → string;
  quote : string → string;
  PrintDefaults : flag.FlagSet → string
}.

(** The package-level variables [HelpIndent] and [DefaultWidth]. *)
Class Globals := { HelpIndent : Z; DefaultWidth : Z }.

Definition initial_globals : Globals := {| HelpIndent := 2; DefaultWidth := 80 |}.

(** The order in which the [n]-th [range] statement of a call yields the
    entries of a map.  Go leaves it unspecified; it may differ from one
    statement to the next. *)
Definition MapRange : Type := ∀ A : Type, nat → gmap string A → list (string * A).

Definition range_sound (ρ : MapRange) : Prop :=
  ∀ A i (m : gmap string A), ρ A i m ≡ₚ map_to_list m.

Definition loc := positive.
Abbreviation store := (gmap loc flag.FlagSet).

(** ** The package, current form *)

#[warnings="-register-all"]
Inductive CommandType := mkCommandType {
  Name : string;
  ShortDesc : string;
  LongDesc : string;
  Help : string;
  Flags : option loc;
  SubCommands : gmap string CommandType
}.

(** [NewCommandType] takes the flag set by address. *)
Definition NewCommandType (n : string) (flags : option loc) : CommandType :=
  mkCommandType n "" "" "" flags ∅.

Inductive ErrorKind := FlagError | MissingCommandError | InvalidCommandError.

(** A [UsageError] wrapped in one of the three error types; the methods
    [Error()], [CommandType()] and [Args()] are the projections [e], [c]
    and [a]. *)
Record Error := mkError {
  kind : ErrorKind;
  e : string;
  c : CommandType;
  a : list string
}.

Inductive Outcome :=
| Return (path : list string) (err : option Error)
| Panic
| Exit.

Section Package.
Context `{L : Layout} `{G : Globals}.

(** The type switch of [appendFlag]. *)
Definition type_label (t : flag.GoType) : string :=
  match t with
  | flag.TBool => ""
  | flag.TUint64 | flag.TUint => "UINT"
  | flag.TInt64 | flag.TInt => "INT"
  | flag.TString => "STRING"
  | flag.TFloat64 => "FLOAT"
  | flag.TOther _ => "VALUE"
  end.

(** The label of a flag; [None] when the assertion
    [f.Value.(flag.Getter)] panics. *)
Definition flag_label (f : flag.Flag) : option string :=
  type_label <$> flag.getter (flag.Value_ f).

(** The variables [appendFlag] closes over: [flags], [flagArgs],
    [maxFlagWidth]. *)
Definition FlagAcc : Type := list flag.Flag * gmap string string * Z.

Definition appendFlag (acc : FlagAcc) (f : flag.Flag) : option FlagAcc :=
  let '(flags, flagArgs, maxFlagWidth) := acc in
  match flag_label f with
  | None => None
  | Some label =>
      let w := int_add (len (flag.Name f)) (len label) in
      Some (flags ++ [f], <[flag.Name f := label]> flagArgs,
            if decide (w > maxFlagWidth) then w else maxFlagWidth)
  end.

Fixpoint visit (acc : FlagAcc) (fs : list flag.Flag) : option FlagAcc :=
  match fs with
  | [] => Some acc
  | f :: fs' =>
      match appendFlag acc f with
      | Some acc' => visit acc' fs'
      | None => None
      end
  end.

Definition flag_line (flagStyle : Style) (flagColWidth : Z)
    (flagArgs : gmap string string) (f : flag.Flag) : string :=
  let flag := pad_left HelpIndent "" +:+ "-" +:+ flag.Name f +:+ " "
              +:+ default "" (flagArgs !! flag.Name f) in
  pad_right flagColWidth flag +:+ Indent2 flagStyle (Wrap flagStyle (flag.Usage f))
  +:+ LF.

Definition subcommand_line (cmdStyle : Style) (maxSubcmdWidth : Z)
    (v : CommandType) : string :=
  pad_left HelpIndent "" +:+ pad_right maxSubcmdWidth (Name v) +:+ "  "
  +:+ Indent2 cmdStyle (Wrap cmdStyle (ShortDesc v)) +:+ LF.

Definition concat_lines (ls : list string) : string := foldr String.append "" ls.

(** [renderHelp]; [None] when it panics (nil [Flags], or a flag value that
    is no [flag.Getter]). *)
Definition renderHelp (ρ : MapRange) (c : CommandType) (width : Z) (h : store)
    : option string :=
  let style := mkStyle HelpIndent (int_sub width HelpIndent) in
  let help := "Command: " +:+ Name c +:+ LF in
  let help :=
    if decide (len (LongDesc c) > 0)
    then help +:+ Indent style (Wrap style (LongDesc c)) +:+ LF +:+ LF
    else if decide (len (ShortDesc c) > 0)
    then help +:+ Indent style (Wrap style (ShortDesc c)) +:+ LF +:+ LF
    else help in
  match Flags c ≫= (h !!.) with
  | None => None
  | Some fset =>
      match visit ([], ∅, 0) (flag.VisitAll fset) with
      | None => None
      | Some (flags, flagArgs, maxFlagWidth) =>
          let flagColWidth := int_add maxFlagWidth 6 in
          let flagStyle := mkStyle flagColWidth (int_sub width flagColWidth) in
          let help :=
            if decide (0 < length flags)%nat
            then help +:+ pad_left HelpIndent "" +:+ Name c +:+ " flags:" +:+ LF
            else help in
          let help :=
            help +:+ concat_lines (flag_line flagStyle flagColWidth flagArgs <$> flags) in
          if decide (size (SubCommands c) < 1)%nat then Some help
          else
            let help := help +:+ LF +:+ pad_left HelpIndent "" +:+ Name c +:+ " sub-commands:" +:+ LF in
            let maxSubcmdWidth :=
              foldl (λ m (kv : string * CommandType),
                       if decide (len (Name kv.2) > m) then len (Name kv.2) else m)
                0 (ρ CommandType 0%nat (SubCommands c)) in
            let w := int_add (int_add HelpIndent maxSubcmdWidth) 2 in
            let cmdStyle := mkStyle w (int_sub width w) in
            Some (help +:+ concat_lines
                    ((λ kv : string * CommandType,
                        subcommand_line cmdStyle maxSubcmdWidth kv.2)
                       <$> ρ CommandType 1%nat (SubCommands c)))
      end
  end.

(** [ProcessArgs], with the flag sets in the store [h].  The callee of the
    recursive call is the entry of [SubCommands] under [remaining[0]]
    ([ProcessArgs_unfold] below states the body with the plain lookup). *)
Fixpoint ProcessArgs (ρ : MapRange) (c : CommandType) (args : list string)
    (h : store) {struct c} : Outcome * store :=
  match Flags c ≫= (λ l, (l,.) <$> h !! l) with
  | None => (Panic, h)
  | Some (l, fset) =>
      let fset := flag.set_Usage flag.usage_noop
                    (flag.Init (Name c) flag.ContinueOnError fset) in
      let '(fset, res) := flag.Parse args fset in
      let h := <[l := fset]> h in
      match res with
      | flag.parse_panic _ => (Panic, h)
      | flag.parse_exit => (Exit, h)
      | flag.parse_error _ =>
          match renderHelp ρ c DefaultWidth h with
          | None => (Panic, h)
          | Some help => (Return [Name c] (Some (mkError FlagError help c args)), h)
          end
      | flag.parse_ok =>
          let remaining := flag.Args fset in
          if decide (size (SubCommands c) = 0)%nat
          then (Return (Name c :: remaining) None, h)
          else
            match remaining with
            | [] =>
                match renderHelp ρ c DefaultWidth h with
                | None => (Panic, h)
                | Some help =>
                    (Return [Name c]
                       (Some (mkError MissingCommandError
                                ("Missing COMMAND:" +:+ LF +:+ help) c args)), h)
                end
            | r0 :: rest =>
                match ((λ sc, ProcessArgs ρ sc) <$> SubCommands c) !! r0 with
                | None =>
                    match renderHelp ρ c DefaultWidth h with
                    | None => (Panic, h)
                    | Some help =>
                        (Return [Name c]
                           (Some (mkError InvalidCommandError
                                    ("Invalid COMMAND: " +:+ r0 +:+ LF +:+ help) c args)), h)
                    end
                | Some sc_ProcessArgs =>
                    match sc_ProcessArgs rest h with
                    | (Return cp err, h) => (Return (Name c :: cp) err, h)
                    | (o, h) => (o, h)
                    end
                end
            end
      end
  end.

End Package.

(** ** The package, earlier form ([commandflags.go]) *)

Module Legacy.

#[warnings="-register-all"]
Inductive CommandType := mkCommandType {
  Name : string;
  Flags : option loc;
  SubCommands : gmap string CommandType
}.

Definition NewCommandType (n : string) (flags : option loc) : CommandType :=
  mkCommandType n flags ∅.

Record Error := mkError {
  kind : ErrorKind;
  e : string;
  c : CommandType;
  a : list string
}.

Inductive Outcome :=
| Return (path : list string) (err : option Error)
| Panic
| Exit.

Section Package.
Context `{L : Layout}.

(** [err.Error()] of an error returned by [Parse]. *)
Definition error_text (err : flag.ParseError) : string :=
  match err with
  | flag.ErrHelp => "flag: help requested"
  | flag.bad_flag_syntax s => "bad flag syntax: " +:+ s
  | flag.not_defined n => "flag provided but not defined: -" +:+ n
  | flag.invalid_boolean_value v n err =>
      "invalid boolean value " +:+ quote v +:+ " for -" +:+ n +:+ ": " +:+ err
  | flag.invalid_boolean_flag n err =>
      "invalid boolean flag " +:+ n +:+ ": " +:+ err
  | flag.needs_an_argument n => "flag needs an argument: -" +:+ n
  | flag.invalid_value v n err =>
      "invalid value " +:+ quote v +:+ " for flag -" +:+ n +:+ ": " +:+ err
  end.

(** [autoHelp]: the text, and the store after [SetOutput] redirected the
    flag set to the buffer; [None] when [Flags] is nil. *)
Definition autoHelp (ρ : MapRange) (c : CommandType) (h : store)
    : option (string * store) :=
  match Flags c ≫= (λ l, (l,.) <$> h !! l) with
  | None => None
  | Some (l, fset) =>
      let result := Name c +:+ " OPTIONS COMMAND" +:+ LF +:+ "OPTIONS:" +:+ LF in
      let fset := flag.SetOutput flag.writer_buffer fset in
      let result := result +:+ PrintDefaults fset in
      let result := result +:+ "COMMAND is one of:" +:+ LF in
      Some (foldl (λ r (kv : string * CommandType), r +:+ kv.1 +:+ " ")
              result (ρ CommandType 0%nat (SubCommands c)),
            <[l := fset]> h)
  end.

Fixpoint ProcessArgs (ρ : MapRange) (c : CommandType) (args : list string)
    (h : store) {struct c} : Outcome * store :=
  match Flags c ≫= (λ l, (l,.) <$> h !! l) with
  | None => (Panic, h)
  | Some (l, fset) =>
      let '(fset, res) := flag.Parse args fset in
      let h := <[l := fset]> h in
      match res with
      | flag.parse_panic _ => (Panic, h)
      | flag.parse_exit => (Exit, h)
      | flag.parse_error err =>
          (Return [Name c] (Some (mkError FlagError (error_text err) c args)), h)
      | flag.parse_ok =>
          let remaining := flag.Args fset in
          if decide (size (SubCommands c) = 0)%nat
          then (Return (Name c :: remaining) None, h)
          else
            match remaining with
            | [] =>
                match autoHelp ρ c h with
                | None => (Panic, h)
                | Some (help, h) =>
                    (Return [Name c]
                       (Some (mkError MissingCommandError
                                ("Missing COMMAND:" +:+ LF +:+ help) c args)), h)
                end
            | r0 :: rest =>
                match ((λ sc, ProcessArgs ρ sc) <$> SubCommands c) !! r0 with
                | None =>
                    match autoHelp ρ c h with
                    | None => (Panic, h)
                    | Some (help, h) =>
                        (Return [Name c]
                           (Some (mkError InvalidCommandError
                                    ("Invalid COMMAND: " +:+ r0 +:+ LF +:+ help)
                                    c args)), h)
                    end
                | Some sc_ProcessArgs =>
                    match sc_ProcessArgs rest h with
                    | (Return cp err, h) => (Return (Name c :: cp) err, h)
                    | (o, h) => (o, h)
                    end
                end
            end
      end
  end.

End Package.

End Legacy.

(** ** Reference instances *)

(** One reading of the text primitives, for evaluating the package on sample
    inputs: on ASCII text that fits its column, wrapping and the hanging
    indent leave a single line as it is and the padding verbs add blanks up
    to the width; [PrintDefaults] is given a flag per line, name and usage. *)
Module Reference.

Fixpoint blanks (n : nat) : string :=
  match n with O => "" | S n' => String " "%char (blanks n') end.

Definition pad (w : Z) (s : string) : string :=
  blanks (Z.to_nat (Z.abs w) - String.length s).

#[export] Instance layout : Layout := {|
  Wrap := λ _ s, s;
  Indent := λ st s, blanks (Z.to_nat (IndentWidth st)) +:+ s;
  Indent2 := λ _ s, s;
  pad_left := λ w s, if decide (w < 0) then s +:+ pad w s else pad w s +:+ s;
  pad_right := λ w s, s +:+ pad w s;
  quote := λ s, String "034"%char s +:+ String "034"%char "";
  PrintDefaults := λ f,
    foldr (λ fl r, "  -" +:+ flag.Name fl +:+ ": " +:+ flag.Usage fl +:+ LF +:+ r)
      "" (flag.VisitAll f)
|}.

(** The order of the map's own enumeration, and its reverse. *)
Definition ascending : MapRange := λ A _ m, map_to_list m.
Definition descending : MapRange := λ A _ m, reverse (map_to_list m).

(** [stringValue.Set]: stores the text, never fails. *)
Definition text_Set : string → string → string * option string :=
  λ _ s, (s, None).

(** A value that takes any text and whose [Get] returns a [t]. *)
Definition text_value (t : flag.GoType) (s : string) : flag.Value :=
  flag.mkValue (Some t) false s text_Set.

(** A value without [Get]. *)
Definition opaque_value (s : string) : flag.Value :=
  flag.mkValue None false s text_Set.

(** [boolValue]: [Set] goes through [strconv.ParseBool]. *)
Definition bool_Set : string → string → string * option string :=
  λ _ s,
    if bool_decide (s ∈ ["1"; "t"; "T"; "TRUE"; "true"; "True"]) then ("true", None)
    else if bool_decide (s ∈ ["0"; "f"; "F"; "FALSE"; "false"; "False"])
    then ("false", None)
    else ("false", Some "parse error").

Definition bool_value (b : bool) : flag.Value :=
  flag.mkValue (Some flag.TBool) true (if b then "true" else "false") bool_Set.

(** [f.Var] for each declaration in turn; [None] when one of them panics. *)
Definition declare (decls : list (flag.Value * string * string)) (f : flag.FlagSet)
    : option flag.FlagSet :=
  foldl (λ o d, o ≫= flag.Var d.1.1 d.1.2 d.2) (Some f) decls.

(** The flags of the declarations, in the order of the declarations. *)
Definition declared (decls : list (flag.Value * string * string)) : list flag.Flag :=
  (λ d, flag.mkFlag d.1.2 d.2 d.1.1 (flag.content d.1.1)) <$> decls.

End Reference.

(** ** Notions for the properties of the parser *)

Module flag_spec.
Import flag.

(** What registration fixes about a flag; [Parse] may change the content of
    its value, nothing else. *)
Definition same_decl (fl fl' : Flag) : Prop :=
  Name fl = Name fl' ∧ Usage fl = Usage fl' ∧ DefValue fl = DefValue fl' ∧
  getter (Value_ fl) = getter (Value_ fl') ∧
  IsBoolFlag (Value_ fl) = IsBoolFlag (Value_ fl') ∧
  Set_ (Value_ fl) = Set_ (Value_ fl').

Definition same_decls (m m' : gmap string Flag) : Prop :=
  ∀ n, option_Forall2 same_decl (m !! n) (m' !! n).

(** What [Parse] leaves alone in a flag set. *)
Definition same_frame (f f' : FlagSet) : Prop :=
  Usage_ f' = Usage_ f ∧ name f' = name f ∧ errorHandling f' = errorHandling f ∧
  output f' = output f ∧ same_decls (formal f) (formal f').

(** Whether the first argument has the shape of a flag: two bytes or more,
    the first a dash. *)
Definition opens_with_flag (arguments : list string) : bool :=
  match arguments with
  | String c0 (String _ _) :: _ => Ascii.eqb c0 "-"%char
  | _ => false
  end.

(** Every flag is filed under its own name, and its value can be
    introspected. *)
Definition keyed_by_name (f : FlagSet) : Prop :=
  map_Forall (λ n fl, Name fl = n) (formal f).

Definition introspectable (f : FlagSet) : Prop :=
  map_Forall (λ _ fl, is_Some (getter (Value_ fl))) (formal f).

#[export] Instance keyed_by_name_dec f : Decision (keyed_by_name f).
Proof. unfold keyed_by_name. apply _. Defined.

#[export] Instance introspectable_dec f : Decision (introspectable f).
Proof. unfold introspectable. apply _. Defined.

End flag_spec.

(** ** Notions for the properties of the command tree *)

(** Height of a command tree, to reason by induction on sub-commands. *)
Fixpoint height (c : CommandType) : nat :=
  S (map_fold (λ _ sc n, height sc `max` n)%nat 0%nat (SubCommands c)).

(** The flag set of a command as [ProcessArgs] parses it: renamed, set to
    [ContinueOnError], its [Usage] silenced. *)
Definition prepared (c : CommandType) (fset : flag.FlagSet) : flag.FlagSet :=
  flag.set_Usage flag.usage_noop (flag.Init (Name c) flag.ContinueOnError fset).

(** The commands a call of [ProcessArgs] visits, the receiver first: after a
    successful parse the call moves on to the sub-command named by the first
    remaining argument, if there is one. *)
Fixpoint trail (c : CommandType) (args : list string) (h : store) {struct c}
    : list CommandType :=
  c :: match Flags c ≫= (λ l, (l,.) <$> h !! l) with
       | None => []
       | Some (l, fset) =>
           let '(fset, res) := flag.Parse args (prepared c fset) in
           match res, flag.Args fset with
           | flag.parse_ok, r0 :: rest =>
               match ((λ sc, trail sc) <$> SubCommands c) !! r0 with
               | Some sc_trail => sc_trail rest (<[l := fset]> h)
               | None => []
               end
           | _, _ => []
           end
       end.

(** A chain of commands, each one a sub-command of the one before. *)
Inductive descent : CommandType → list CommandType → Prop :=
| descent_end c : descent c [c]
| descent_step c k sc t :
    SubCommands c !! k = Some sc → descent sc t → descent c (c :: t).

(** The addresses of all the flag sets of a tree; every flag set has one
    owner when none occurs twice. *)
Fixpoint flag_sets_of (c : CommandType) : list loc :=
  option_list (Flags c)
  ++ map_fold (λ _ sc acc, flag_sets_of sc ++ acc) [] (SubCommands c).

Definition exclusive (root : CommandType) : Prop := NoDup (flag_sets_of root).

(** What a call keeps of a flag set: its output and the declarations of its
    flags. *)
Definition kept (fs fs' : flag.FlagSet) : Prop :=
  flag.output fs' = flag.output fs ∧
  flag_spec.same_decls (flag.formal fs) (flag.formal fs').

(** What a call makes of the flag set of a command it visits. *)
Definition visited_state (node : CommandType) (fs' : flag.FlagSet) : Prop :=
  flag.name fs' = Name node ∧ flag.errorHandling fs' = flag.ContinueOnError ∧
  flag.Usage_ fs' = flag.usage_noop ∧ flag.parsed fs' = true.

(** ** The renderer, block by block *)

Section Blocks.
Context `{L : Layout} `{G : Globals}.

Definition header (c : CommandType) : string := "Command: " +:+ Name c +:+ LF.

Definition description_block (c : CommandType) (width : Z) : string :=
  let style := mkStyle HelpIndent (int_sub width HelpIndent) in
  if decide (len (LongDesc c) > 0)
  then Indent style (Wrap style (LongDesc c)) +:+ LF +:+ LF
  else if decide (len (ShortDesc c) > 0)
  then Indent style (Wrap style (ShortDesc c)) +:+ LF +:+ LF
  else "".

(** The label of a flag under a labelling [lbl] of value types. *)
Definition label_under (lbl : flag.GoType → string) (f : flag.Flag) : string :=
  from_option lbl "" (flag.getter (flag.Value_ f)).

Definition widest_label (lbl : flag.GoType → string) (fs : list flag.Flag) : Z :=
  foldl (λ m f, let w := int_add (len (flag.Name f)) (len (label_under lbl f)) in
                if decide (w > m) then w else m) 0 fs.

Definition flag_line_under (lbl : flag.GoType → string) (width colw : Z)
    (f : flag.Flag) : string :=
  let st := mkStyle colw (int_sub width colw) in
  pad_right colw (pad_left HelpIndent "" +:+ "-" +:+ flag.Name f +:+ " "
                  +:+ label_under lbl f)
  +:+ Indent2 st (Wrap st (flag.Usage f)) +:+ LF.

(** The flag block for the flags [fs], one line each, in the order of [fs]. *)
Definition flags_block (lbl : flag.GoType → string) (c : CommandType) (width : Z)
    (fs : list flag.Flag) : string :=
  match fs with
  | [] => ""
  | _ =>
      pad_left HelpIndent "" +:+ Name c +:+ " flags:" +:+ LF +:+
      concat_lines (flag_line_under lbl width (int_add (widest_label lbl fs) 6) <$> fs)
  end.

Definition widest_name (vs : list (string * CommandType)) : Z :=
  foldl (λ m (kv : string * CommandType),
           if decide (len (Name kv.2) > m) then len (Name kv.2) else m) 0 vs.

(** The sub-command block, listing the entries in the order of [listing]. *)
Definition subcommands_block (c : CommandType) (width : Z)
    (measured listing : list (string * CommandType)) : string :=
  if decide (SubCommands c = ∅) then ""
  else
    let w := int_add (int_add HelpIndent (widest_name measured)) 2 in
    LF +:+ pad_left HelpIndent "" +:+ Name c +:+ " sub-commands:" +:+ LF +:+
    concat_lines ((λ kv : string * CommandType,
                     subcommand_line (mkStyle w (int_sub width w))
                       (widest_name measured) kv.2) <$> listing).

End Blocks.

(** ** The specification's wording, where it differs *)

(** The labels as the specification words them: every integer kind is
    labelled ["INT"]. *)
Definition claimed_label (t : flag.GoType) : string :=
  match t with
  | flag.TBool => ""
  | flag.TUint64 | flag.TUint | flag.TInt64 | flag.TInt => "INT"
  | flag.TFloat64 => "FLOAT"
  | flag.TString => "STRING"
  | flag.TOther _ => "VALUE"
  end.

(** ** The bundled example *)

(** The command tree of the example program; its one flag set lives at
    address [1] and is shared by the root, [deploy], [create] and [update].
    The [Set] methods of the numeric flags come from [strconv] and stay
    abstract. *)
Module Example.
Import Reference.

Definition TAB : string := String "009"%char "".

Section Tree.
Variables float64_Set int_Set : string → string → string * option string.

Definition float64_value (s : string) : flag.Value :=
  flag.mkValue (Some flag.TFloat64) false s float64_Set.
Definition int_value (s : string) : flag.Value :=
  flag.mkValue (Some flag.TInt) false s int_Set.

Definition flags : option flag.FlagSet :=
  declare [ (bool_value false, "verbose", "Enable verbose output");
            (bool_value false, "debug", "Enable debug output");
            (float64_value "1", "c", "cpu share");
            (int_value "32", "m", "memory share (MB)");
            (int_value "1", "i", "instance count") ]
    (flag.NewFlagSet "flags" flag.ContinueOnError).

Definition flags_at : loc := 1%positive.

Definition memory : store :=
  match flags with Some f => {[ flags_at := f ]} | None => ∅ end.

Definition cf : CommandType :=
  mkCommandType "example"
    "This example demonstrates commandflags."
    ("This example demonstrates commandflags. The commandflags" +:+ LF +:+ TAB
     +:+ "library is designed to be a minimal add-on for the built-in flags library to"
     +:+ LF +:+ TAB
     +:+ "add subcommands. Each subcommand may have it's own flag set, or share a"
     +:+ LF +:+ TAB
     +:+ "flagset with some (or all) other subcommands. The heaviest part of the"
     +:+ LF +:+ TAB
     +:+ "commandflags library is really the help system which is improved over the"
     +:+ LF +:+ TAB +:+ "default flags help.")
    "" (Some flags_at)
    (<["help" := mkCommandType "help" "Show help for a command"
                   "Help usage:  help COMMAND"
                   "Valid commands are deploy, create, update, show, list_artifacts, and deployments"
                   None ∅]>
     (<["deploy" := mkCommandType "deploy" "deploy an app completely"
                      "usage: deploy NAME REV" "" (Some flags_at) ∅]>
     (<["create" := mkCommandType "create" "initial create/deploy of an app"
                      "usage: create NAME REV" "" (Some flags_at) ∅]>
     (<["update" := mkCommandType "update" "update definition of an app, really!"
                      "usage: update NAME REV" "" (Some flags_at) ∅]>
     (<["show" := mkCommandType "show" "show the description of an app" "" "" None ∅]>
     (<["deployments" :=
          mkCommandType "deployments"
            "either status of destroy the deployments for an app" "" "" None
            (<["status" := mkCommandType "status"
                             "get the status of deployments for an app" "" "" None ∅]>
             (<["destroy" := mkCommandType "destroy"
                               "destroy hung deployment for an app" "" "" None ∅]> ∅))]>
     (<["list_artifacts" :=
          mkCommandType "list_artifacts" "list_artifacts the definition of an app"
            "" "" None ∅]> ∅))))))).

Definition show : CommandType :=
  mkCommandType "show" "show the description of an app" "" "" None ∅.

End Tree.

End Example.

(** ** Sample inputs *)

Module Sample.
Import Reference.

#[export] Existing Instance initial_globals.

Definition flag_set (n : string) (eh : flag.ErrorHandling)
    (decls : list (flag.Value * string * string)) : flag.FlagSet :=
  default (flag.NewFlagSet n eh) (declare decls (flag.NewFlagSet n eh)).

(** A tree [root -> deploy -> {status, destroy}], every command with a flag
    set of its own. *)
Definition root_flags : flag.FlagSet :=
  flag_set "flags" flag.ExitOnError
    [ (bool_value false, "verbose", "Enable verbose output");
      (text_value flag.TUint "32", "m", "memory share (MB)");
      (text_value flag.TFloat64 "1", "c", "cpu share") ].
Definition deploy_flags : flag.FlagSet :=
  flag_set "deploy" flag.ContinueOnError
    [ (text_value flag.TString "", "zone", "where to deploy") ].
Definition status_flags : flag.FlagSet := flag_set "status" flag.PanicOnError [].
Definition destroy_flags : flag.FlagSet := flag_set "destroy" flag.ContinueOnError [].

Definition memory : store :=
  {[ 1%positive := root_flags; 2%positive := deploy_flags;
     3%positive := status_flags; 4%positive := destroy_flags ]}.

Definition status : CommandType :=
  mkCommandType "status" "get the status" "" "" (Some 3%positive) ∅.
Definition destroy : CommandType :=
  mkCommandType "destroy" "destroy a deployment" "" "" (Some 4%positive) ∅.
Definition deploy : CommandType :=
  mkCommandType "deploy" "deploy an app" "" "" (Some 2%positive)
    {[ "status" := status; "destroy" := destroy ]}.
Definition root : CommandType :=
  mkCommandType "root" "" "" "" (Some 1%positive) {[ "deploy" := deploy ]}.

(** A command of the earlier form, on the flag set of [deploy]. *)
Definition legacy_app : Legacy.CommandType :=
  Legacy.mkCommandType "app" (Some 2%positive)
    {[ "run" := Legacy.mkCommandType "run" (Some 3%positive) ∅ ]}.

(** A failure two levels down: [bogus] is no sub-command of [deploy]. *)
Definition bogus_args : list string := ["--verbose"; "deploy"; "bogus"].
Definition bogus_run : Outcome * store := ProcessArgs ascending root bogus_args memory.
Definition bogus_error : Error :=
  match bogus_run.1 with
  | Return _ (Some err) => err
  | _ => mkError FlagError "" root []
  end.

End Sample.

(** ** Notions for the properties of whole resolutions *)

(** Whether an argument has the shape of a flag. *)
Definition flag_shaped (s : string) : bool := flag_spec.opens_with_flag [s].

(** Every sub-command of the tree is filed under its own name. *)
Fixpoint keyed_tree (c : CommandType) : bool :=
  map_fold (λ k sc acc, bool_decide (Name sc = k) && keyed_tree sc && acc) true
    (SubCommands c).

(** What the kind of an error says about the level it arose at: the parse
    result [res] of that level, the flag set [fset'] after the parse, and
    the help [help] rendered for the command of the error. *)
Definition error_cause (err : Error) (fset' : flag.FlagSet) (res : flag.ParseResult)
    (help : string) : Prop :=
  match kind err with
  | FlagError => (∃ perr, res = flag.parse_error perr) ∧ e err = help
  | MissingCommandError =>
      res = flag.parse_ok ∧ SubCommands (c err) ≠ ∅ ∧ flag.Args fset' = [] ∧
      e err = "Missing COMMAND:" +:+ LF +:+ help
  | InvalidCommandError =>
      res = flag.parse_ok ∧ SubCommands (c err) ≠ ∅ ∧
      ∃ r0 rest, flag.Args fset' = r0 :: rest ∧ SubCommands (c err) !! r0 = None ∧
                 e err = "Invalid COMMAND: " +:+ r0 +:+ LF +:+ help
  end.



(** What [renderHelp] shows of a sub-command. *)
Definition shown (kv : string * CommandType) : string * string :=
  (Name kv.2, ShortDesc kv.2).

(** ** Notions for comparing the two forms of the package *)

(** A command of the current form seen as one of the earlier form: the
    descriptions are dropped. *)
Fixpoint forget (c : CommandType) : Legacy.CommandType :=
  Legacy.mkCommandType (Name c) (Flags c) ((λ sc, forget sc) <$> SubCommands c).

(** A flag set of the earlier form's store and one of the current form's:
    the same flags with the same values, the former under
    [ContinueOnError]. *)
Definition akin (fL f : flag.FlagSet) : Prop :=
  flag.formal fL = flag.formal f ∧ flag.errorHandling fL = flag.ContinueOnError.

Definition akin_stores (hL h : store) : Prop :=
  ∀ l, option_Forall2 akin (hL !! l) (h !! l).

(** The two forms return alike: the same path and, if any, errors of the
    same kind, on the same command, with the same arguments. *)
Definition same_error (eL : Legacy.Error) (e : Error) : Prop :=
  Legacy.kind eL = kind e ∧ Legacy.c eL = forget (c e) ∧ Legacy.a eL = a e.

Definition agree (oL : Legacy.Outcome) (o : Outcome) : Prop :=
  match oL, o with
  | Legacy.Return pL eL, Return p e => pL = p ∧ option_Forall2 same_error eL e
  | Legacy.Panic, Panic => True
  | _, _ => False
  end.

(** The text of [autoHelp] for a command whose flag set is [fset]: two
    heading lines, the defaults of the flags as printed into the buffer, and
    the keys of the sub-commands in the order of the loop, a blank after
    each. *)
Definition earlier_help `{L : Layout} (ρ : MapRange) (c : Legacy.CommandType)
    (fset : flag.FlagSet) : string :=
  Legacy.Name c +:+ " OPTIONS COMMAND" +:+ LF +:+ "OPTIONS:" +:+ LF
  +:+ PrintDefaults (flag.SetOutput flag.writer_buffer fset)
  +:+ "COMMAND is one of:" +:+ LF
  +:+ concat_lines ((λ kv : string * Legacy.CommandType, kv.1 +:+ " ")
                      <$> ρ Legacy.CommandType 0%nat (Legacy.SubCommands c)).


(** ** Notions for the earlier form *)

(** Height of a command tree of the earlier form. *)
Fixpoint height_then (c : Legacy.CommandType) : nat :=
  S (map_fold (λ _ sc n, height_then sc `max` n)%nat 0%nat (Legacy.SubCommands c)).

(** What the earlier form keeps of a flag set: its [Usage], its name, its
    error handling and the declarations of its flags. *)
Definition kept_then (fs fs' : flag.FlagSet) : Prop :=
  flag.Usage_ fs' = flag.Usage_ fs ∧ flag.name fs' = flag.name fs ∧
  flag.errorHandling fs' = flag.errorHandling fs ∧
  flag_spec.same_decls (flag.formal fs) (flag.formal fs').

Definition same_output (fs fs' : flag.FlagSet) : Prop :=
  flag.output fs' = flag.output fs.

(** The outcomes for which [autoHelp] ran: a missing or an invalid
    command. *)
Definition asked_for_command (o : Legacy.Outcome) : Prop :=
  match o with
  | Legacy.Return _ (Some err) => Legacy.kind err ≠ FlagError
  | _ => False
  end.

(** ** The example program *)

(** [main] of the example: it resolves the arguments of the process on the
    tree [cf] that [init] builds, with the flag set [flags] shared by the
    root and three of its sub-commands. *)

Module Program.
Import Example.

(** How a run ends, and with what [main] itself has written.  What the
    [flag] package writes to its output on a parse error is not part of it. *)
Inductive Run :=
| Crashed
| ExitedInParse
| Failed (message : string)
| Printed (line : string).

(** A slice of strings under [fmt.Println]: the elements between brackets,
    a blank between two of them. *)
Definition bracketed (words : list string) : string :=
  "[" +:+ String.concat " " words +:+ "]".

Section Main.
Context `{L : Layout}.
Variables float64_Set int_Set : string → string → string * option string.
Variable ρ : MapRange.

(** [fmt.Fprintln(os.Stderr, err)] and [os.Exit(1)] on an error;
    [fmt.Println] of the heading and the words otherwise, a blank between
    the two operands. *)
Definition main (argv : list string) : Run :=
  match (ProcessArgs (G := initial_globals) ρ cf argv
           (memory float64_Set int_Set)).1 with
  | Panic => Crashed
  | Exit => ExitedInParse
  | Return _ (Some err) => Failed (e err +:+ LF)
  | Return words None =>
      Printed ("all the nonflags are: " +:+ " " +:+ bracketed words +:+ LF)
  end.

End Main.

End Program.

(** ** Further sample inputs *)

Module Variants.
Import Reference Sample.

(** [root] with a [Help] text, and with its sub-command filed under another
    key, without flags, with a long description and a [Help] text. *)
Definition root_elsewhere : CommandType :=
  mkCommandType "root" "" "" "see the manual" (Some 1%positive)
    {[ "ship" := mkCommandType "deploy" "deploy an app" "usage: deploy NAME"
                   "see the manual" None ∅ ]}.

(** The sub-command [deploy] of the example. *)
Definition example_deploy : CommandType :=
  mkCommandType "deploy" "deploy an app completely" "usage: deploy NAME REV" ""
    (Some Example.flags_at) ∅.


(** A command with a sub-command, on a flag set whose one flag has a value
    with [String] and [Set] and no [Get], registered with [Var]. *)
Definition plain_flags : flag.FlagSet :=
  flag_set "plain" flag.ContinueOnError
    [ (opaque_value "info", "level", "how much to log") ].
Definition plain_at : loc := 5%positive.
Definition plain_memory : store := {[ plain_at := plain_flags ]}.
Definition plain_app : CommandType :=
  mkCommandType "app" "an app" "" "" (Some plain_at)
    {[ "run" := mkCommandType "run" "run the app" "" "" (Some plain_at) ∅ ]}.

(** The store of [Sample.memory] as the earlier form needs it: every flag
    set under [ContinueOnError]. *)
Definition memory_then : store :=
  (λ f, flag.Init (flag.name f) flag.ContinueOnError f) <$> memory.

(** Arguments that go three levels down in [root], with a flag at the first
    level, and arguments that go to [deploy] in the example, with a flag at
    the second level. *)
Definition deep_args : list string := ["--verbose"; "deploy"; "status"; "extra"].
Definition shared_args : list string := ["deploy"; "-m"; "64"; "app"].

Definition deep_run : Outcome * store := ProcessArgs ascending root deep_args memory.
Definition shared_run : Outcome * store :=
  ProcessArgs ascending Example.cf shared_args (Example.memory text_Set text_Set).

End Variants.

(** * Properties *)

(** ** The flag parser *)

Module flag_facts.
Import flag flag_spec.

#[export] Instance same_decl_refl : Reflexive same_decl.
Proof. by intros fl. Qed.

#[export] Instance same_decl_trans : Transitive same_decl.
Proof. intros x y z (?&?&?&?&?&?) (?&?&?&?&?&?). repeat split; congruence. Qed.

#[export] Instance same_decls_refl : Reflexive same_decls.
Proof. intros m n. destruct (m !! n); by constructor. Qed.

#[export] Instance same_decls_trans : Transitive same_decls.
Proof.
  intros x y z Hxy Hyz n. specialize (Hxy n). specialize (Hyz n).
  destruct Hxy; inversion Hyz; subst; constructor. by etrans.
Qed.

#[export] Instance same_frame_refl : Reflexive same_frame.
Proof. by intros f. Qed.

#[export] Instance same_frame_trans : Transitive same_frame.
Proof.
  intros x y z (?&?&?&?&?) (?&?&?&?&?).
  repeat split; try congruence. by etrans.
Qed.

Lemma same_decls_store n fl c m :
  m !! n = Some fl →
  same_decls m
    (<[n := mkFlag (Name fl) (Usage fl)
              (mkValue (getter (Value_ fl)) (IsBoolFlag (Value_ fl)) c
                 (Set_ (Value_ fl))) (DefValue fl)]> m).
Proof.
  intros Hn k. destruct (decide (n = k)) as [<-|Hne].
  - rewrite lookup_insert_eq, Hn. by constructor.
  - rewrite lookup_insert_ne by done. destruct (m !! k); by constructor.
Qed.

(** One round keeps the frame, leaves a suffix of the arguments, and takes
    at least one argument away when it has seen a flag. *)
Lemma parseOne_spec f f' seen err :
  parseOne f = (f', seen, err) →
  same_frame f f' ∧ parsed f' = parsed f ∧ args f' `suffix_of` args f ∧
  (seen = true → (length (args f') < length (args f))%nat).
Proof.
  unfold parseOne. intros Hp.
  repeat match type of Hp with
  | (match ?x with _ => _ end) = _ => destruct x eqn:?
  | (if ?x then _ else _) = _ => destruct x eqn:?
  | (let '(_, _) := ?x in _) = _ => destruct x eqn:?
  end; simplify_eq/=;
  repeat match goal with
  | H : (if ?x then _ else _) = Some _ |- _ => destruct x eqn:?; simplify_eq/=
  | H : match ?x with _ => _ end = Some _ |- _ => destruct x eqn:?; simplify_eq/=
  end;
  repeat match goal with
  | H : args _ = _ |- _ => rewrite H
  end;
  (split; [unfold same_frame; simpl; repeat split; try done;
           eauto using same_decls_store|]);
  (split; [done|]); (split; [|intros; simpl; try done; try lia]);
  eauto using suffix_cons_r, suffix_nil.
Qed.

Lemma parse_loop_spec n f f' r :
  parse_loop n f = (f', r) →
  same_frame f f' ∧ parsed f' = parsed f ∧ args f' `suffix_of` args f.
Proof.
  revert f. induction n as [|n IH]; intros f; simpl.
  - intros [= <- <-]. done.
  - destruct (parseOne f) as [[f1 seen] err] eqn:Hone.
    apply parseOne_spec in Hone as (Hfr & Hpa & Hsuf & _).
    destruct seen.
    + intros (Hfr' & Hpa' & Hsuf')%IH.
      split; [by etrans|]. split; [congruence|by etrans].
    + destruct err as [e|]; [destruct (errorHandling f1)|];
        intros [= <- <-]; done.
Qed.

(** The loop never runs out of rounds: any two budgets above the number of
    arguments give the same result. *)
Lemma parse_loop_enough n m f :
  (length (args f) < n)%nat → (length (args f) < m)%nat →
  parse_loop n f = parse_loop m f.
Proof.
  revert m f. induction n as [|n IH]; intros [|m] f Hn Hm; try lia; simpl.
  destruct (parseOne f) as [[f1 seen] err] eqn:Hone.
  apply parseOne_spec in Hone as (_ & _ & _ & Hlt).
  destruct seen; [|done]. specialize (Hlt eq_refl). apply IH; lia.
Qed.

(** Under [ContinueOnError] the parser returns: success or an error. *)
Lemma parse_loop_continue n f f' r :
  errorHandling f = ContinueOnError → parse_loop n f = (f', r) →
  r = parse_ok ∨ ∃ e, r = parse_error e.
Proof.
  revert f. induction n as [|n IH]; intros f Hc; simpl.
  - intros [= <- <-]. by left.
  - destruct (parseOne f) as [[f1 seen] err] eqn:Hone.
    apply parseOne_spec in Hone as ((_ & _ & Heh & _) & _).
    destruct seen; [apply IH; congruence|].
    destruct err as [e|]; [|intros [= <- <-]; by left].
    rewrite Heh, Hc. intros [= <- <-]. right. by exists e.
Qed.

Lemma Parse_spec arguments f f' r :
  Parse arguments f = (f', r) →
  same_frame f f' ∧ parsed f' = true ∧ Args f' `suffix_of` arguments.
Proof. unfold Parse. by intros (Hfr & ? & ?)%parse_loop_spec. Qed.

Lemma Parse_continue arguments f f' r :
  errorHandling f = ContinueOnError → Parse arguments f = (f', r) →
  r = parse_ok ∨ ∃ e, r = parse_error e.
Proof. unfold Parse. intros Hc. by apply parse_loop_continue. Qed.

Lemma Parse_positionals arguments f :
  opens_with_flag arguments = false →
  ∃ f', Parse arguments f = (f', parse_ok) ∧ Args f' = arguments.
Proof.
  unfold Parse, opens_with_flag. intros Hno. simpl. unfold parseOne. simpl.
  destruct arguments as [|[|c0 [|c1 s]] rest]; simpl; eauto.
  rewrite Hno. simpl. eauto.
Qed.

Lemma same_frame_keyed f f' : same_frame f f' → keyed_by_name f → keyed_by_name f'.
Proof.
  intros (_ & _ & _ & _ & Hd) Hk n fl' Hn. specialize (Hd n).
  rewrite Hn in Hd. inversion Hd as [fl ? (HN & _) Hfl|]; subst.
  rewrite <- HN. by apply Hk.
Qed.

Lemma same_frame_introspectable f f' :
  same_frame f f' → introspectable f → introspectable f'.
Proof.
  intros (_ & _ & _ & _ & Hd) Hk n fl' Hn. specialize (Hd n).
  rewrite Hn in Hd. inversion Hd as [fl ? (_ & _ & _ & HG & _) Hfl|]; subst.
  rewrite <- HG. by eapply Hk.
Qed.

Lemma NewFlagSet_keyed n eh : keyed_by_name (NewFlagSet n eh).
Proof. intros k fl. simpl. by rewrite lookup_empty. Qed.

Lemma Var_keyed v n usage f f' :
  Var v n usage f = Some f' → keyed_by_name f → keyed_by_name f'.
Proof.
  unfold Var. destruct (formal f !! n) eqn:Hn; [done|]. intros [= <-] Hk k fl.
  simpl. destruct (decide (n = k)) as [<-|Hne].
  - rewrite lookup_insert_eq. by intros [= <-].
  - rewrite lookup_insert_ne by done. apply Hk.
Qed.

(** [VisitAll]: every flag once, in ascending order of the names. *)
Lemma names_of_lookups (m : gmap string Flag) (ks : list string) :
  (∀ k, k ∈ ks → ∃ fl, m !! k = Some fl ∧ Name fl = k) →
  Name <$> omap (λ n, m !! n) ks = ks.
Proof.
  induction ks as [|k ks IH]; intros Hks; simpl; [done|].
  destruct (Hks k) as (fl & -> & Hfl); [by left|]. simpl.
  rewrite Hfl. f_equal. apply IH. intros k' Hk'. apply Hks. by right.
Qed.

Lemma VisitAll_names f :
  keyed_by_name f →
  Name <$> VisitAll f = merge_sort String.le (elements (dom (formal f))).
Proof.
  intros Hk. unfold VisitAll, sortFlags. apply names_of_lookups.
  intros k Hin. rewrite merge_sort_Permutation in Hin.
  apply elem_of_elements, elem_of_dom in Hin as [fl Hfl].
  exists fl. split; [done|]. by apply Hk.
Qed.

Lemma VisitAll_sorted f :
  keyed_by_name f → StronglySorted String.le (Name <$> VisitAll f).
Proof. intros Hk. rewrite VisitAll_names by done. apply StronglySorted_merge_sort; apply _. Qed.

Lemma VisitAll_NoDup f : keyed_by_name f → NoDup (Name <$> VisitAll f).
Proof.
  intros Hk. rewrite VisitAll_names by done.
  rewrite merge_sort_Permutation. apply NoDup_elements.
Qed.

Lemma VisitAll_names_dom f :
  keyed_by_name f → Name <$> VisitAll f ≡ₚ elements (dom (formal f)).
Proof. intros Hk. rewrite VisitAll_names by done. apply merge_sort_Permutation. Qed.

Lemma elem_of_VisitAll f fl :
  keyed_by_name f → fl ∈ VisitAll f ↔ formal f !! Name fl = Some fl.
Proof.
  intros Hk. unfold VisitAll, sortFlags. rewrite list_elem_of_omap. split.
  - intros (k & _ & Hfl). by rewrite (Hk _ _ Hfl).
  - intros Hfl. exists (Name fl). split; [|done].
    rewrite merge_sort_Permutation. apply elem_of_elements, elem_of_dom. eauto.
Qed.

Lemma VisitAll_lookup f fl : fl ∈ VisitAll f → ∃ n, formal f !! n = Some fl.
Proof.
  unfold VisitAll, sortFlags. rewrite list_elem_of_omap. intros (k & _ & Hfl). eauto.
Qed.

Lemma VisitAll_empty f : formal f = ∅ → VisitAll f = [].
Proof. unfold VisitAll, sortFlags. intros ->. by rewrite dom_empty_L, elements_empty. Qed.

Lemma VisitAll_nil f : VisitAll f = [] → formal f = ∅.
Proof.
  intros Hv. apply map_empty. intros n. destruct (formal f !! n) as [fl|] eqn:Hn; [|done].
  assert (Hin : n ∈ merge_sort String.le (elements (dom (formal f)))).
  { rewrite merge_sort_Permutation. apply elem_of_elements, elem_of_dom. eauto. }
  assert (Hfl : fl ∈ VisitAll f).
  { unfold VisitAll, sortFlags. rewrite list_elem_of_omap. eauto. }
  rewrite Hv in Hfl. by apply elem_of_nil in Hfl.
Qed.

Lemma VisitAll_introspectable f :
  introspectable f → Forall (λ fl, is_Some (getter (Value_ fl))) (VisitAll f).
Proof.
  intros Hi. apply Forall_forall. intros fl (n & Hn)%VisitAll_lookup. by eapply Hi.
Qed.

End flag_facts.

(** ** The command tree *)

Lemma height_child c k sc : SubCommands c !! k = Some sc → (height sc < height c)%nat.
Proof.
  destruct c as [n sd ld hp fl subs]. simpl. intros Hk.
  enough (height sc ≤ map_fold (λ _ sc n, height sc `max` n) 0 subs)%nat by lia.
  revert k sc Hk.
  apply (map_fold_weak_ind
           (λ r (m : gmap string CommandType), ∀ k sc, m !! k = Some sc → height sc ≤ r)%nat).
  - intros k sc. by rewrite lookup_empty.
  - intros i x m r Hi IH k sc. destruct (decide (i = k)) as [<-|Hne].
    + rewrite lookup_insert_eq. intros [= <-]. lia.
    + rewrite lookup_insert_ne by done. intros ?%IH. lia.
Qed.

Lemma CommandType_tree_ind (P : CommandType → Prop) :
  (∀ c, (∀ k sc, SubCommands c !! k = Some sc → P sc) → P c) → ∀ c, P c.
Proof.
  intros Hstep c. remember (height c) as n eqn:Hn.
  revert c Hn. induction n as [n IH] using lt_wf_ind. intros c ->.
  apply Hstep. intros k sc Hk. eapply IH; [|done]. by eapply height_child.
Qed.

Lemma trail_unfold c args h :
  trail c args h =
  c :: match Flags c ≫= (λ l, (l,.) <$> h !! l) with
       | None => []
       | Some (l, fset) =>
           let '(fset, res) := flag.Parse args (prepared c fset) in
           match res, flag.Args fset with
           | flag.parse_ok, r0 :: rest =>
               match SubCommands c !! r0 with
               | Some sc => trail sc rest (<[l := fset]> h)
               | None => []
               end
           | _, _ => []
           end
       end.
Proof.
  destruct c as [n sd ld hp fl subs]; simpl. f_equal.
  destruct (fl ≫= _) as [[l fset]|]; [|done].
  destruct (flag.Parse _ _) as [fset' res]. destruct res; try done.
  destruct (flag.Args fset') as [|r0 rest]; [done|].
  rewrite lookup_fmap. by destruct (subs !! r0).
Qed.

Lemma trail_descent c args h : descent c (trail c args h).
Proof.
  revert args h. induction c as [c IH] using CommandType_tree_ind. intros args h.
  rewrite trail_unfold.
  destruct (Flags c ≫= _) as [[l fset]|]; [|constructor].
  destruct (flag.Parse _ _) as [fset' res]. destruct res; try constructor.
  destruct (flag.Args fset') as [|r0 rest]; [constructor|].
  destruct (SubCommands c !! r0) as [sc|] eqn:Hsc; [|constructor].
  econstructor; [done|]. by eapply IH.
Qed.

#[export] Instance kept_refl : Reflexive kept.
Proof. intros fs. split; [done|apply flag_facts.same_decls_refl]. Qed.

#[export] Instance kept_trans : Transitive kept.
Proof.
  intros x y z [? ?] [? ?]. split; [congruence|].
  by eapply flag_facts.same_decls_trans.
Qed.

(** The flag sets met along a trail are among the flag sets of the tree,
    each as often. *)
Lemma flag_sets_of_child c k sc :
  SubCommands c !! k = Some sc →
  flag_sets_of sc
  ⊆+ map_fold (λ _ sc acc, flag_sets_of sc ++ acc) [] (SubCommands c).
Proof.
  revert k sc.
  apply (map_fold_weak_ind
           (λ r (m : gmap string CommandType),
              ∀ k sc, m !! k = Some sc → flag_sets_of sc ⊆+ r)).
  - intros k sc. by rewrite lookup_empty.
  - intros i x m r Hi IH k sc. destruct (decide (i = k)) as [<-|Hne].
    + rewrite lookup_insert_eq. intros [= <-]. by apply submseteq_inserts_r.
    + rewrite lookup_insert_ne by done. intros ?%IH. by apply submseteq_inserts_l.
Qed.

Lemma flag_sets_of_unfold c :
  flag_sets_of c
  = option_list (Flags c)
    ++ map_fold (λ _ sc acc, flag_sets_of sc ++ acc) [] (SubCommands c).
Proof. by destruct c. Qed.

Lemma trail_flag_sets c : ∀ args h, omap Flags (trail c args h) ⊆+ flag_sets_of c.
Proof.
  induction c as [c IH] using CommandType_tree_ind. intros args h.
  rewrite trail_unfold, flag_sets_of_unfold.
  assert (Hhere : omap Flags [c] ⊆+ option_list (Flags c)
                    ++ map_fold (λ _ sc acc, flag_sets_of sc ++ acc) []
                         (SubCommands c)).
  { simpl. destruct (Flags c); simpl; [apply submseteq_skip|]; apply submseteq_nil_l. }
  destruct (Flags c ≫= _) as [[l fset]|] eqn:Hfl; [|done].
  destruct (flag.Parse _ _) as [fset' res]. destruct res; try done.
  destruct (flag.Args fset') as [|r0 rest]; [done|].
  destruct (SubCommands c !! r0) as [sc|] eqn:Hsc; [|done].
  pose proof (IH _ _ Hsc rest (<[l:=fset']> h)) as Hsub.
  pose proof (flag_sets_of_child _ _ _ Hsc) as Hchild.
  simpl. destruct (Flags c) as [l0|]; simpl; [apply submseteq_skip|]; by etrans.
Qed.

Lemma exclusive_trail root args h :
  exclusive root → NoDup (omap Flags (trail root args h)).
Proof.
  unfold exclusive. intros Hnd.
  destruct (submseteq_Permutation _ _ (trail_flag_sets root args h)) as [rest Hp].
  rewrite Hp in Hnd. by apply NoDup_app in Hnd as [? _].
Qed.

Section Package_facts.
Context `{L : Layout} `{G : Globals}.
Import flag_spec flag_facts.

(** The body of [ProcessArgs] as the source has it. *)
Lemma ProcessArgs_unfold ρ c args h :
  ProcessArgs ρ c args h =
  match Flags c ≫= (λ l, (l,.) <$> h !! l) with
  | None => (Panic, h)
  | Some (l, fset) =>
      let '(fset, res) := flag.Parse args (prepared c fset) in
      let h := <[l := fset]> h in
      match res with
      | flag.parse_panic _ => (Panic, h)
      | flag.parse_exit => (Exit, h)
      | flag.parse_error _ =>
          match renderHelp ρ c DefaultWidth h with
          | None => (Panic, h)
          | Some help => (Return [Name c] (Some (mkError FlagError help c args)), h)
          end
      | flag.parse_ok =>
          let remaining := flag.Args fset in
          if decide (size (SubCommands c) = 0)%nat
          then (Return (Name c :: remaining) None, h)
          else
            match remaining with
            | [] =>
                match renderHelp ρ c DefaultWidth h with
                | None => (Panic, h)
                | Some help =>
                    (Return [Name c]
                       (Some (mkError MissingCommandError
                                ("Missing COMMAND:" +:+ LF +:+ help) c args)), h)
                end
            | r0 :: rest =>
                match SubCommands c !! r0 with
                | None =>
                    match renderHelp ρ c DefaultWidth h with
                    | None => (Panic, h)
                    | Some help =>
                        (Return [Name c]
                           (Some (mkError InvalidCommandError
                                    ("Invalid COMMAND: " +:+ r0 +:+ LF +:+ help)
                                    c args)), h)
                    end
                | Some sc =>
                    match ProcessArgs ρ sc rest h with
                    | (Return cp err, h) => (Return (Name c :: cp) err, h)
                    | (o, h) => (o, h)
                    end
                end
            end
      end
  end.
Proof.
  destruct c as [n sd ld hp fl subs]; simpl.
  destruct (fl ≫= _) as [[l fset]|]; [|done].
  unfold prepared; simpl.
  destruct (flag.Parse _ _) as [fset' res]. destruct res; try done.
  destruct (decide _); [done|]. destruct (flag.Args fset') as [|r0 rest]; [done|].
  rewrite lookup_fmap. by destruct (subs !! r0).
Qed.

Lemma append_assoc (s1 s2 s3 : string) : (s1 +:+ s2) +:+ s3 = s1 +:+ s2 +:+ s3.
Proof.
  induction s1 as [|ch s1 IH]; [done|].
  change (String ch ((s1 +:+ s2) +:+ s3) = String ch (s1 +:+ s2 +:+ s3)). by rewrite IH.
Qed.

Lemma append_empty_r (s : string) : s +:+ "" = s.
Proof.
  induction s as [|ch s IH]; [done|].
  change (String ch (s +:+ "") = String ch s). by rewrite IH.
Qed.

Lemma visit_Some fl0 fa0 mw0 fs :
  Forall (λ f, is_Some (flag.getter (flag.Value_ f))) fs →
  visit (fl0, fa0, mw0) fs =
  Some (fl0 ++ fs,
        foldl (λ m f, <[flag.Name f := label_under type_label f]> m) fa0 fs,
        foldl (λ m f, let w := int_add (len (flag.Name f))
                                 (len (label_under type_label f)) in
                      if decide (w > m) then w else m) mw0 fs).
Proof.
  intros Hall. revert fl0 fa0 mw0.
  induction Hall as [|f fs [t Ht] _ IH]; intros fl0 fa0 mw0; simpl.
  - by rewrite app_nil_r.
  - unfold flag_label, label_under. rewrite Ht. simpl.
    rewrite IH. by rewrite <- app_assoc.
Qed.

Lemma visit_None acc fs :
  Exists (λ f, flag.getter (flag.Value_ f) = None) fs → visit acc fs = None.
Proof.
  intros Hex. revert acc. induction Hex as [f fs Hf|f fs _ IH]; intros [[fl0 fa0] mw0].
  - simpl. unfold flag_label. by rewrite Hf.
  - simpl. destruct (flag_label f); [apply IH|done].
Qed.

Lemma labels_lookup_other (lbl : flag.Flag → string)
    (fa0 : gmap string string) (fs : list flag.Flag) n :
  n ∉ flag.Name <$> fs →
  foldl (λ m f, <[flag.Name f := lbl f]> m) fa0 fs !! n = fa0 !! n.
Proof.
  revert fa0. induction fs as [|f fs IH]; intros fa0 Hn; simpl; [done|].
  rewrite fmap_cons, not_elem_of_cons in Hn. destruct Hn as [Hne Hn].
  rewrite IH by done. by rewrite lookup_insert_ne.
Qed.

Lemma labels_lookup (lbl : flag.Flag → string)
    (fa0 : gmap string string) (fs : list flag.Flag) f :
  NoDup (flag.Name <$> fs) → f ∈ fs →
  foldl (λ m f, <[flag.Name f := lbl f]> m) fa0 fs !! flag.Name f = Some (lbl f).
Proof.
  revert fa0. induction fs as [|g fs IH]; intros fa0 Hnd Hin; simpl.
  - by apply elem_of_nil in Hin.
  - rewrite fmap_cons in Hnd. apply NoDup_cons in Hnd as [Hg Hnd].
    apply elem_of_cons in Hin as [->|Hin].
    + rewrite labels_lookup_other by done. by rewrite lookup_insert_eq.
    + by apply IH.
Qed.

Lemma flag_lines_labelled width colw (fa0 : gmap string string) (fs : list flag.Flag) :
  NoDup (flag.Name <$> fs) →
  flag_line (mkStyle colw (int_sub width colw)) colw
    (foldl (λ m f, <[flag.Name f := label_under type_label f]> m) fa0 fs) <$> fs
  = flag_line_under type_label width colw <$> fs.
Proof.
  intros Hnd. apply Forall_fmap_ext, Forall_forall. intros f Hf.
  unfold flag_line, flag_line_under.
  by rewrite (labels_lookup (label_under type_label)).
Qed.

(** [renderHelp] on a command whose flag set is at hand: the header, then
    the description, the flag block and the sub-command block. *)
Lemma renderHelp_blocks ρ c width h l fset :
  Flags c = Some l → h !! l = Some fset →
  keyed_by_name fset → introspectable fset →
  renderHelp ρ c width h =
  Some (header c +:+ description_block c width
        +:+ flags_block type_label c width (flag.VisitAll fset)
        +:+ subcommands_block c width (ρ CommandType 0%nat (SubCommands c))
              (ρ CommandType 1%nat (SubCommands c))).
Proof.
  intros Hl Hh Hk Hi. unfold renderHelp. rewrite Hl. simpl. rewrite Hh.
  rewrite visit_Some by by apply VisitAll_introspectable.
  rewrite app_nil_l.
  rewrite flag_lines_labelled by by apply VisitAll_NoDup.
  fold (widest_label type_label (flag.VisitAll fset)).
  fold (widest_name (ρ CommandType 0%nat (SubCommands c))).
  unfold header, description_block, flags_block, subcommands_block.
  destruct (decide (size (SubCommands c) < 1)%nat) as [Hs|Hs];
    (destruct (decide (SubCommands c = ∅)) as [He|He];
     [|try (exfalso; apply He, map_size_empty_iff; lia)]);
    try (exfalso; rewrite He, map_size_empty in Hs; lia);
    f_equal;
    destruct (flag.VisitAll fset) as [|f0 fs0] eqn:Hv;
    (destruct (decide (0 < length _)%nat) as [Hlen|Hlen]; simpl in Hlen; try lia);
    repeat case_decide;
    rewrite ?append_assoc, ?append_empty_r; try done.
Qed.

(** *** Resolution *)

Lemma flags_at (node : CommandType) (h : store) l fset :
  Flags node = Some l → h !! l = Some fset →
  Flags node ≫= (λ l, (l,.) <$> h !! l) = Some (l, fset).
Proof. intros -> Hh. simpl. by rewrite Hh. Qed.

Lemma renderHelp_total ρ node width h l fset :
  Flags node = Some l → h !! l = Some fset → introspectable fset →
  is_Some (renderHelp ρ node width h).
Proof.
  intros Hl Hh Hi. unfold renderHelp. rewrite Hl. simpl. rewrite Hh.
  rewrite visit_Some by by apply VisitAll_introspectable.
  destruct (decide (size (SubCommands node) < 1)%nat); eauto.
Qed.

Lemma renderHelp_nil ρ node width h :
  Flags node = None → renderHelp ρ node width h = None.
Proof. intros Hl. unfold renderHelp. by rewrite Hl. Qed.

(** After the parse of a level, the level's help can be rendered. *)
Lemma renderHelp_after_parse ρ node args h l fset fset' res :
  Flags node = Some l → introspectable fset →
  flag.Parse args (prepared node fset) = (fset', res) →
  is_Some (renderHelp ρ node DefaultWidth (<[l := fset']> h)).
Proof.
  intros Hl Hi (Hfr & _)%Parse_spec.
  eapply renderHelp_total; [done|apply lookup_insert_eq|].
  eapply same_frame_introspectable; [done|]. exact Hi.
Qed.

(** What a failing call returns, by induction on the tree. *)
Lemma ProcessArgs_error_origin ρ node :
  ∀ args h path err h',
  ProcessArgs ρ node args h = (Return path (Some err), h') →
  path = Name <$> trail node args h ∧
  last (trail node args h) = Some (c err) ∧
  ∃ args_k h_k,
    args_k `suffix_of` args ∧ a err = args_k ∧
    ProcessArgs ρ (c err) args_k h_k = (Return [Name (c err)] (Some err), h').
Proof.
  induction node as [node IH] using CommandType_tree_ind.
  intros args h path err h' Hrun. pose proof Hrun as Hrun0.
  rewrite ProcessArgs_unfold in Hrun. rewrite trail_unfold.
  destruct (Flags node ≫= _) as [[l fset]|]; [|done].
  destruct (flag.Parse _ _) as [fset' res] eqn:Hparse.
  apply Parse_spec in Hparse as (_ & _ & Hsuf).
  destruct res; simpl in Hrun; try done.
  - destruct (decide _); [done|].
    destruct (flag.Args fset') as [|r0 rest] eqn:Hrem.
    + destruct (renderHelp _ _ _ _); [|done]. simplify_eq/=. eauto 10.
    + destruct (SubCommands node !! r0) as [sc|] eqn:Hsc.
      * destruct (ProcessArgs ρ sc rest _) as [[cp err'| |] h1] eqn:Hsub;
          simplify_eq/=.
        destruct (IH _ _ Hsc _ _ _ _ _ Hsub)
          as (-> & Hlast & args_k & h_k & Hk & Ha & Horigin).
        split; [done|]. split.
        { destruct (trail_descent sc rest (<[l:=fset']> h)); by rewrite last_cons, Hlast. }
        exists args_k, h_k. split; [|done].
        etrans; [done|]. etrans; [|done]. by apply suffix_cons_r.
      * destruct (renderHelp _ _ _ _); [|done]. simplify_eq/=. eauto 10.
  - destruct (renderHelp _ _ _ _); [|done]. simplify_eq/=. eauto 10.
Qed.

(** A successful call returns the names of the visited commands, then the
    arguments the last of them left over. *)
Lemma ProcessArgs_success_path ρ node :
  ∀ args h path h',
  ProcessArgs ρ node args h = (Return path None, h') →
  ∃ leftover, path = (Name <$> trail node args h) ++ leftover ∧
              leftover `suffix_of` args.
Proof.
  induction node as [node IH] using CommandType_tree_ind.
  intros args h path h' Hrun.
  rewrite ProcessArgs_unfold in Hrun. rewrite trail_unfold.
  destruct (Flags node ≫= _) as [[l fset]|]; [|done].
  destruct (flag.Parse _ _) as [fset' res] eqn:Hparse.
  apply Parse_spec in Hparse as (_ & _ & Hsuf).
  destruct res; simpl in Hrun; try done.
  - destruct (decide _) as [Hsz|Hsz].
    + apply map_size_empty_iff in Hsz. simplify_eq/=.
      exists (flag.Args fset'). split; [|done].
      destruct (flag.Args fset') as [|r0 rest]; [done|].
      by rewrite Hsz, lookup_empty.
    + destruct (flag.Args fset') as [|r0 rest] eqn:Hrem.
      { destruct (renderHelp _ _ _ _); done. }
      destruct (SubCommands node !! r0) as [sc|] eqn:Hsc.
      * destruct (ProcessArgs ρ sc rest _) as [[cp err'| |] h1] eqn:Hsub;
          simplify_eq/=.
        destruct (IH _ _ Hsc _ _ _ _ Hsub) as (leftover & -> & Hleft).
        exists leftover. split; [done|].
        etrans; [done|]. etrans; [|done]. by apply suffix_cons_r.
      * destruct (renderHelp _ _ _ _); done.
  - destruct (renderHelp _ _ _ _); done.
Qed.

Lemma renderHelp_panics_without_getter ρ node width h l fset fl :
  Flags node = Some l → h !! l = Some fset →
  fl ∈ flag.VisitAll fset → flag.getter (flag.Value_ fl) = None →
  renderHelp ρ node width h = None.
Proof.
  intros Hl Hh Hin Hget. unfold renderHelp. rewrite Hl. simpl. rewrite Hh.
  rewrite visit_None; [done|]. apply Exists_exists. eauto.
Qed.

(** The current form never leaves through [os.Exit]: the parser runs under
    [ContinueOnError]. *)
Lemma ProcessArgs_never_exits ρ node : ∀ args h, (ProcessArgs ρ node args h).1 ≠ Exit.
Proof.
  induction node as [node IH] using CommandType_tree_ind. intros args h.
  rewrite ProcessArgs_unfold.
  destruct (Flags node ≫= _) as [[l fset]|]; [|done].
  destruct (flag.Parse _ _) as [fset' res] eqn:Hparse.
  destruct (Parse_continue _ _ _ _ (eq_refl : flag.errorHandling (prepared node fset)
                                             = flag.ContinueOnError) Hparse)
    as [->|[perr ->]]; simpl.
  - destruct (decide _); [done|]. destruct (flag.Args fset') as [|r0 rest].
    { by destruct (renderHelp _ _ _ _). }
    destruct (SubCommands node !! r0) as [sc|] eqn:Hsc.
    + specialize (IH _ _ Hsc rest (<[l:=fset']> h)).
      by destruct (ProcessArgs ρ sc rest _) as [[cp err| |] h1].
    + by destruct (renderHelp _ _ _ _).
  - by destruct (renderHelp _ _ _ _).
Qed.

(** A call returns a path when every visited command has its flag set and
    the flag values of the store can be introspected. *)
Lemma ProcessArgs_returns ρ node :
  ∀ args h,
  (∀ n, n ∈ trail node args h → ∃ l fs, Flags n = Some l ∧ h !! l = Some fs) →
  (∀ l fs, h !! l = Some fs → introspectable fs) →
  ∃ path err, (ProcessArgs ρ node args h).1 = Return path err.
Proof.
  induction node as [node IH] using CommandType_tree_ind. intros args h Hflags Hintro.
  destruct (Hflags node) as (l & fset & Hl & Hh).
  { rewrite trail_unfold. by left. }
  rewrite trail_unfold in Hflags. rewrite ProcessArgs_unfold.
  rewrite (flags_at _ _ _ _ Hl Hh) in Hflags |- *.
  destruct (flag.Parse _ _) as [fset' res] eqn:Hparse.
  destruct (renderHelp_after_parse ρ node args h l fset fset' res Hl
              (Hintro _ _ Hh) Hparse) as [help Hhelp].
  pose proof Hparse as (Hfr & _)%Parse_spec.
  destruct (Parse_continue _ _ _ _ (eq_refl : flag.errorHandling (prepared node fset)
                                             = flag.ContinueOnError) Hparse)
    as [->|[perr ->]]; simpl.
  - destruct (decide _) as [Hsz|Hsz]; [eauto|].
    destruct (flag.Args fset') as [|r0 rest].
    { rewrite Hhelp. eauto. }
    destruct (SubCommands node !! r0) as [sc|] eqn:Hsc.
    + destruct (IH _ _ Hsc rest (<[l:=fset']> h)) as (cp & err & Hsub).
      * intros v Hin. destruct (Hflags v) as (l0 & fs0 & Hl0 & Hh0); [by right|].
        exists l0. destruct (decide (l = l0)) as [<-|Hne].
        -- exists fset'. by rewrite lookup_insert_eq.
        -- exists fs0. by rewrite lookup_insert_ne.
      * intros l0 fs0. destruct (decide (l = l0)) as [<-|Hne].
        -- rewrite lookup_insert_eq. intros [= <-].
           eapply same_frame_introspectable; [done|]. exact (Hintro _ _ Hh).
        -- rewrite lookup_insert_ne by done. apply Hintro.
      * destruct (ProcessArgs ρ sc rest _) as [o1 h1]. simpl in Hsub. subst o1. eauto.
    + rewrite Hhelp. eauto.
  - rewrite Hhelp. eauto.
Qed.

(** A leaf given arguments that do not open with a flag returns its name and
    the arguments. *)
Lemma leaf_returns_positionals ρ node args h l fset :
  Flags node = Some l → h !! l = Some fset → SubCommands node = ∅ →
  opens_with_flag args = false →
  (ProcessArgs ρ node args h).1 = Return (Name node :: args) None.
Proof.
  intros Hl Hh Hleaf Hno.
  destruct (Parse_positionals args (prepared node fset) Hno) as (fset' & Hparse & Hargs).
  rewrite ProcessArgs_unfold, (flags_at _ _ _ _ Hl Hh), Hparse. simpl.
  rewrite decide_True by (by rewrite Hleaf, map_size_empty). by rewrite Hargs.
Qed.

(** C1.  On a leaf (no sub-commands) whose flag parse succeeds,
    [ProcessArgs] returns the name of the command followed by the arguments
    the parser left over, as they are and in their order, and no error;
    the leftover arguments are a suffix of the argument vector. *)
Theorem leaf_returns_leftover_arguments ρ node args h l fset fset' :
  Flags node = Some l → h !! l = Some fset →
  SubCommands node = ∅ →
  flag.Parse args (prepared node fset) = (fset', flag.parse_ok) →
  ProcessArgs ρ node args h
  = (Return (Name node :: flag.Args fset') None, <[l := fset']> h)
  ∧ flag.Args fset' `suffix_of` args.
Proof.
  intros Hl Hh Hleaf Hparse. rewrite ProcessArgs_unfold.
  rewrite (flags_at _ _ _ _ Hl Hh), Hparse. simpl.
  rewrite decide_True by (by rewrite Hleaf, map_size_empty).
  split; [done|]. by apply Parse_spec in Hparse as (_ & _ & ?).
Qed.

(** On a command with sub-commands, with flag values that implement
    [flag.Getter], whose flag parse succeeds: with no
    argument left the call returns the one-name path and a
    [MissingCommandError] whose text is ["Missing COMMAND:\n"] and the
    rendered help; with a first argument that is no key of [SubCommands]
    it returns the one-name path and an [InvalidCommandError] whose text is
    ["Invalid COMMAND: "], the argument, a line feed and the rendered help.
    The two cases exclude each other. *)
Theorem missing_or_invalid_command ρ node args h l fset fset' :
  Flags node = Some l → h !! l = Some fset → introspectable fset →
  SubCommands node ≠ ∅ →
  flag.Parse args (prepared node fset) = (fset', flag.parse_ok) →
  ∃ help,
    renderHelp ρ node DefaultWidth (<[l := fset']> h) = Some help ∧
    match flag.Args fset' with
    | [] =>
        ProcessArgs ρ node args h
        = (Return [Name node]
             (Some (mkError MissingCommandError
                      ("Missing COMMAND:" +:+ LF +:+ help) node args)),
           <[l := fset']> h)
    | r0 :: _ =>
        SubCommands node !! r0 = None →
        ProcessArgs ρ node args h
        = (Return [Name node]
             (Some (mkError InvalidCommandError
                      ("Invalid COMMAND: " +:+ r0 +:+ LF +:+ help) node args)),
           <[l := fset']> h)
    end.
Proof.
  intros Hl Hh Hi Hsubs Hparse.
  destruct (renderHelp_after_parse ρ node args h l fset fset' _ Hl Hi Hparse)
    as [help Hhelp].
  exists help. split; [done|].
  rewrite ProcessArgs_unfold, (flags_at _ _ _ _ Hl Hh), Hparse. simpl.
  rewrite decide_False by (by rewrite map_size_empty_iff).
  destruct (flag.Args fset') as [|r0 rest].
  - by rewrite Hhelp.
  - intros ->. by rewrite Hhelp.
Qed.

(** C3.  When [ProcessArgs] fails, the path is the names of the visited
    commands from the root to the command where the error arose, in order;
    the error names that command, and it is the very value the call on that
    command returned with its own name alone: kind, text, command and
    arguments are those of the point of origin. *)
Theorem error_path_runs_to_origin ρ root args h path err h' :
  ProcessArgs ρ root args h = (Return path (Some err), h') →
  descent root (trail root args h) ∧
  path = Name <$> trail root args h ∧
  last (trail root args h) = Some (c err) ∧
  ∃ args_k h_k,
    args_k `suffix_of` args ∧ a err = args_k ∧
    ProcessArgs ρ (c err) args_k h_k = (Return [Name (c err)] (Some err), h').
Proof.
  intros Hrun. split; [apply trail_descent|].
  by eapply ProcessArgs_error_origin.
Qed.

(** The current [ProcessArgs] on a rejected argument vector: the one-name
    path and a [FlagError] whose text is the rendered help. *)
Lemma flag_error_carries_help ρ node args h l fset fset' perr :
  Flags node = Some l → h !! l = Some fset → introspectable fset →
  flag.Parse args (prepared node fset) = (fset', flag.parse_error perr) →
  ∃ help,
    renderHelp ρ node DefaultWidth (<[l := fset']> h) = Some help ∧
    ProcessArgs ρ node args h
    = (Return [Name node] (Some (mkError FlagError help node args)),
       <[l := fset']> h).
Proof.
  intros Hl Hh Hi Hparse.
  destruct (renderHelp_after_parse ρ node args h l fset fset' _ Hl Hi Hparse)
    as [help Hhelp].
  exists help. split; [done|].
  rewrite ProcessArgs_unfold, (flags_at _ _ _ _ Hl Hh), Hparse. simpl.
  by rewrite Hhelp.
Qed.

(** [renderHelp] returns a text for every command that has its flag
    set and whose flag values can be introspected, at every width.  The text
    is the header, then the description, the flag block and the sub-command
    block; a block is empty when the command has no description, no flag, or
    no sub-command. *)
Theorem renderHelp_returns_blocks ρ node width h l fset :
  Flags node = Some l → h !! l = Some fset → introspectable fset →
  is_Some (renderHelp ρ node width h) ∧
  (keyed_by_name fset →
   renderHelp ρ node width h =
     Some (header node +:+ description_block node width
           +:+ flags_block type_label node width (flag.VisitAll fset)
           +:+ subcommands_block node width
                 (ρ CommandType 0%nat (SubCommands node))
                 (ρ CommandType 1%nat (SubCommands node)))) ∧
  (LongDesc node = "" → ShortDesc node = "" → description_block node width = "") ∧
  (flag.formal fset = ∅ → flags_block type_label node width (flag.VisitAll fset) = "") ∧
  (SubCommands node = ∅ →
   subcommands_block node width (ρ CommandType 0%nat (SubCommands node))
     (ρ CommandType 1%nat (SubCommands node)) = "").
Proof.
  intros Hl Hh Hi. split; [by eapply renderHelp_total|].
  split; [intros Hk; by eapply renderHelp_blocks|]. split; [|split].
  - unfold description_block. by intros -> ->.
  - intros He. by rewrite VisitAll_empty.
  - intros He. unfold subcommands_block. by rewrite decide_True.
Qed.

(** C10.  A visited command whose [Flags] is nil makes the call panic: no
    path and no error come back.  The earlier form panics alike on a
    command whose [Flags] is nil. *)
Theorem nil_flags_panic ρ root args h node legacy_node :
  (node ∈ trail root args h → Flags node = None →
   (ProcessArgs ρ root args h).1 = Panic) ∧
  (Legacy.Flags legacy_node = None →
   Legacy.ProcessArgs ρ legacy_node args h = (Legacy.Panic, h)).
Proof.
  split; [|destruct legacy_node as [n fl subs]; simpl; by intros ->].
  revert args h. induction root as [root IH] using CommandType_tree_ind.
  intros args h Hin Hnil. rewrite trail_unfold in Hin. rewrite ProcessArgs_unfold.
  apply elem_of_cons in Hin as [->|Hin].
  { by rewrite Hnil. }
  destruct (Flags root ≫= _) as [[l fset]|]; [|done].
  destruct (flag.Parse _ _) as [fset' res]. simpl.
  destruct res; try by apply elem_of_nil in Hin.
  destruct (flag.Args fset') as [|r0 rest]; [by apply elem_of_nil in Hin|].
  destruct (SubCommands root !! r0) as [sc|] eqn:Hsc; [|by apply elem_of_nil in Hin].
  rewrite decide_False.
  2:{ rewrite map_size_empty_iff. intros He. by rewrite He, lookup_empty in Hsc. }
  specialize (IH _ _ Hsc rest (<[l:=fset']> h) Hin Hnil).
  by destruct (ProcessArgs ρ sc rest _) as [[cp err| |] h1]; simplify_eq/=.
Qed.

(** *** The store across a call *)

Lemma parse_level_store node args (h : store) l fset fset' res :
  h !! l = Some fset →
  flag.Parse args (prepared node fset) = (fset', res) →
  (∀ l0, l0 ≠ l → <[l := fset']> h !! l0 = h !! l0) ∧
  (∀ l0, option_Forall2 kept (h !! l0) (<[l := fset']> h !! l0)) ∧
  visited_state node fset'.
Proof.
  intros Hh (Hfr & Hpa & _)%Parse_spec.
  destruct Hfr as (HU & Hn & He & Ho & Hd). split; [|split].
  - intros l0 Hne. by rewrite lookup_insert_ne.
  - intros l0. destruct (decide (l = l0)) as [<-|Hne].
    + rewrite lookup_insert_eq, Hh. by constructor.
    + rewrite lookup_insert_ne by done. destruct (h !! l0); by constructor.
  - unfold visited_state. by rewrite HU, Hn, He, Hpa.
Qed.

Lemma ProcessArgs_frame ρ node :
  ∀ args h o h',
  ProcessArgs ρ node args h = (o, h') →
  (∀ l, Some l ∉ Flags <$> trail node args h → h' !! l = h !! l) ∧
  (∀ l, option_Forall2 kept (h !! l) (h' !! l)).
Proof.
  induction node as [node IH] using CommandType_tree_ind.
  intros args h o h' Hrun.
  assert (Hrefl : ∀ l, option_Forall2 kept (h !! l) (h !! l)).
  { intros l. destruct (h !! l); by constructor. }
  rewrite ProcessArgs_unfold in Hrun. rewrite trail_unfold.
  destruct (Flags node) as [l|] eqn:Hl; simpl in *; [|by simplify_eq].
  destruct (h !! l) as [fset|] eqn:Hh; simpl in *; [|by simplify_eq].
  destruct (flag.Parse _ _) as [fset' res] eqn:Hparse.
  destruct (parse_level_store _ _ _ _ _ _ _ Hh Hparse) as (Hother & Hkept & _).
  assert (Hhere : ∀ l0 t, Some l0 ∉ Flags <$> node :: t →
                          <[l:=fset']> h !! l0 = h !! l0).
  { intros l0 t Hnot. apply Hother. intros ->. apply Hnot.
    rewrite fmap_cons, Hl. by left. }
  destruct res; simpl in Hrun;
    try (simplify_eq; split; [intros l0; apply Hhere|done]).
  - destruct (decide _).
    { simplify_eq. split; [intros l0; apply Hhere|done]. }
    destruct (flag.Args fset') as [|r0 rest].
    { destruct (renderHelp _ _ _ _); simplify_eq;
        (split; [intros l0; apply Hhere|done]). }
    destruct (SubCommands node !! r0) as [sc|] eqn:Hsc.
    2:{ destruct (renderHelp _ _ _ _); simplify_eq;
          (split; [intros l0; apply Hhere|done]). }
    destruct (ProcessArgs ρ sc rest _) as [o1 h1] eqn:Hsub.
    destruct (IH _ _ Hsc _ _ _ _ Hsub) as [Hfr1 Hk1].
    assert (h' = h1) as -> by (destruct o1; by simplify_eq).
    split.
    + intros l0 Hnot. rewrite Hl in Hnot.
      apply not_elem_of_cons in Hnot as [Hne Hnot].
      rewrite (Hfr1 l0 Hnot). apply Hother. congruence.
    + intros l0. specialize (Hkept l0). specialize (Hk1 l0).
      destruct Hkept; inversion Hk1; subst; constructor. by etrans.
  - destruct (renderHelp _ _ _ _); simplify_eq;
      (split; [intros l0; apply Hhere|done]).
Qed.

Lemma ProcessArgs_visited_state ρ node :
  ∀ args h o h' n l,
  ProcessArgs ρ node args h = (o, h') →
  NoDup (omap Flags (trail node args h)) →
  n ∈ trail node args h → Flags n = Some l → is_Some (h !! l) →
  ∃ fs', h' !! l = Some fs' ∧ visited_state n fs'.
Proof.
  induction node as [node IH] using CommandType_tree_ind.
  intros args h o h' n l Hrun Hnd Hin Hn [fs0 Hfs0].
  pose proof (ProcessArgs_frame ρ node args h o h' Hrun) as [Hframe _].
  rewrite ProcessArgs_unfold in Hrun. rewrite trail_unfold in Hnd, Hin, Hframe.
  destruct (Flags node) as [l1|] eqn:Hl; simpl in *.
  2:{ apply elem_of_cons in Hin as [->|Hin]; [congruence|by apply elem_of_nil in Hin]. }
  destruct (h !! l1) as [fset|] eqn:Hh; simpl in *.
  2:{ apply elem_of_cons in Hin as [->|Hin]; [|by apply elem_of_nil in Hin].
      congruence. }
  destruct (flag.Parse _ _) as [fset' res] eqn:Hparse.
  destruct (parse_level_store _ _ _ _ _ _ _ Hh Hparse) as (Hother & _ & Hvis).
  rewrite Hl in Hnd. simpl in Hnd. apply NoDup_cons in Hnd as [Hfresh Hnd].
  assert (Hroot : h' !! l1 = <[l1:=fset']> h !! l1 →
                  n = node → ∃ fs', h' !! l = Some fs' ∧ visited_state n fs').
  { intros Heq ->. assert (l = l1) as -> by congruence.
    exists fset'. by rewrite Heq, lookup_insert_eq. }
  assert (Hstop : h' = <[l1:=fset']> h → n ∈ [node] →
                  ∃ fs', h' !! l = Some fs' ∧ visited_state n fs').
  { intros -> ->%list_elem_of_singleton. by apply Hroot. }
  destruct res; simpl in Hrun; try (apply Hstop; [by simplify_eq|done]).
  - destruct (decide _) as [Hsz|Hsz].
    { apply map_size_empty_iff in Hsz. apply Hstop; [by simplify_eq|].
      destruct (flag.Args fset'); [done|]. by rewrite Hsz, lookup_empty in Hin. }
    destruct (flag.Args fset') as [|r0 rest].
    { destruct (renderHelp _ _ _ _); (apply Hstop; [by simplify_eq|done]). }
    destruct (SubCommands node !! r0) as [sc|] eqn:Hsc.
    2:{ destruct (renderHelp _ _ _ _); (apply Hstop; [by simplify_eq|done]). }
    destruct (ProcessArgs ρ sc rest _) as [o1 h1] eqn:Hsub.
    assert (h' = h1) as -> by (destruct o1; by simplify_eq).
    pose proof (ProcessArgs_frame ρ sc rest _ o1 h1 Hsub) as [Hframe1 _].
    apply elem_of_cons in Hin as [->|Hin].
    + apply Hroot; [|done]. apply Hframe1.
      intros (m & Hm & Hmin)%list_elem_of_fmap. apply Hfresh.
      apply list_elem_of_omap. eauto.
    + eapply (IH _ _ Hsc); [done..|].
      destruct (decide (l = l1)) as [->|Hne].
      * rewrite lookup_insert_eq. eauto.
      * rewrite lookup_insert_ne by done. eauto.
  - destruct (renderHelp _ _ _ _); (apply Hstop; [by simplify_eq|done]).
Qed.

(** C9 (amended).  A call leaves every flag set alone that belongs to no
    visited command.  In every flag set it keeps the output and the
    declarations of the flags (name, usage, default, kind of value): only
    the contents of the values may change there.  When every flag set of the
    tree has one owner, the flag set of a visited command ends up renamed to
    the command, set to [ContinueOnError], given the silent [Usage], and
    marked as parsed. *)
Theorem call_changes_only_visited_flag_sets ρ root args h o h' :
  ProcessArgs ρ root args h = (o, h') →
  (∀ l, Some l ∉ Flags <$> trail root args h → h' !! l = h !! l) ∧
  (∀ l, option_Forall2 kept (h !! l) (h' !! l)) ∧
  (exclusive root →
   ∀ n l, n ∈ trail root args h → Flags n = Some l → is_Some (h !! l) →
          ∃ fs', h' !! l = Some fs' ∧ visited_state n fs').
Proof.
  intros Hrun. destruct (ProcessArgs_frame ρ root args h o h' Hrun) as [H1 H2].
  split; [done|]. split; [done|]. intros Hex n l Hin Hn Hl.
  eapply ProcessArgs_visited_state; [done|by apply exclusive_trail|done..].
Qed.

(** *** Rendering and the order of [range] *)

Lemma widest_name_from m0 (vs vs' : list (string * CommandType)) :
  vs ≡ₚ vs' →
  foldl (λ m (kv : string * CommandType),
           if decide (len (Name kv.2) > m) then len (Name kv.2) else m) m0 vs
  = foldl (λ m (kv : string * CommandType),
             if decide (len (Name kv.2) > m) then len (Name kv.2) else m) m0 vs'.
Proof.
  intros Hp. revert m0. induction Hp as [|x vs vs' _ IH|x y vs|vs1 vs2 vs3 _ IH1 _ IH2];
    intros m0; simpl.
  - done.
  - apply IH.
  - f_equal. repeat case_decide; lia.
  - by rewrite IH1.
Qed.

Lemma widest_name_Permutation (vs vs' : list (string * CommandType)) :
  vs ≡ₚ vs' → widest_name vs = widest_name vs'.
Proof. apply widest_name_from. Qed.

Lemma range_single {A} (ρ ρ' : MapRange) i (m : gmap string A) :
  range_sound ρ → range_sound ρ' → (size m ≤ 1)%nat →
  ρ A i m = ρ' A i m.
Proof.
  intros Hs Hs' Hsz.
  assert (Hp : ρ A i m ≡ₚ ρ' A i m).
  { etrans; [apply Hs|symmetry; apply Hs']. }
  assert (Hlen : (length (ρ A i m) ≤ 1)%nat).
  { by rewrite (Hs A i m), length_map_to_list. }
  destruct (ρ A i m) as [|x [|y t]]; simpl in Hlen; [| |lia].
  - by apply Permutation_nil_l in Hp.
  - by apply Permutation_singleton_l in Hp.
Qed.

(** C5 (amended).  The text of [renderHelp] depends on the command, the
    width, the flag set, and the order in which the listing loop meets the
    sub-commands: two calls whose listing loops meet them in the same order
    give the same text, and so do any two calls on a command with at most
    one sub-command.  The same holds of [autoHelp] and its one loop. *)
Theorem renderHelp_same_listing_same_text ρ ρ' node width h legacy_node :
  range_sound ρ → range_sound ρ' →
  (ρ CommandType 1%nat (SubCommands node) = ρ' CommandType 1%nat (SubCommands node)
   ∨ (size (SubCommands node) ≤ 1)%nat →
   renderHelp ρ node width h = renderHelp ρ' node width h) ∧
  (ρ Legacy.CommandType 0%nat (Legacy.SubCommands legacy_node)
   = ρ' Legacy.CommandType 0%nat (Legacy.SubCommands legacy_node)
   ∨ (size (Legacy.SubCommands legacy_node) ≤ 1)%nat →
   Legacy.autoHelp ρ legacy_node h = Legacy.autoHelp ρ' legacy_node h).
Proof.
  intros Hs Hs'. split; intros Hsame.
  - assert (Hlist : ρ CommandType 1%nat (SubCommands node)
                    = ρ' CommandType 1%nat (SubCommands node)).
    { destruct Hsame as [?|?]; [done|by apply range_single]. }
    assert (Hmax : widest_name (ρ CommandType 0%nat (SubCommands node))
                   = widest_name (ρ' CommandType 0%nat (SubCommands node))).
    { apply widest_name_Permutation. etrans; [apply Hs|symmetry; apply Hs']. }
    unfold renderHelp. unfold widest_name in Hmax. by rewrite Hlist, Hmax.
  - assert (Hlist : ρ Legacy.CommandType 0%nat (Legacy.SubCommands legacy_node)
                    = ρ' Legacy.CommandType 0%nat (Legacy.SubCommands legacy_node)).
    { destruct Hsame as [?|?]; [done|by apply range_single]. }
    unfold Legacy.autoHelp. by rewrite Hlist.
Qed.

(** C6 (amended).  The help line of every flag carries the label of the
    type switch: none for [bool], ["UINT"] for [uint64] and [uint],
    ["INT"] for [int64] and [int], ["STRING"] for [string], ["FLOAT"] for
    [float64], ["VALUE"] for anything else. *)
Theorem flag_lines_carry_type_labels ρ node width h l fset :
  Flags node = Some l → h !! l = Some fset →
  keyed_by_name fset → introspectable fset →
  renderHelp ρ node width h =
    Some (header node +:+ description_block node width
          +:+ flags_block type_label node width (flag.VisitAll fset)
          +:+ subcommands_block node width
                (ρ CommandType 0%nat (SubCommands node))
                (ρ CommandType 1%nat (SubCommands node))) ∧
  (∀ fl, flag.formal fset !! flag.Name fl = Some fl → fl ∈ flag.VisitAll fset) ∧
  (∀ fl, fl ∈ flag.VisitAll fset →
     ∃ t, flag.getter (flag.Value_ fl) = Some t ∧
          label_under type_label fl =
          match t with
          | flag.TBool => ""
          | flag.TUint64 | flag.TUint => "UINT"
          | flag.TInt64 | flag.TInt => "INT"
          | flag.TString => "STRING"
          | flag.TFloat64 => "FLOAT"
          | flag.TOther _ => "VALUE"
          end).
Proof.
  intros Hl Hh Hk Hi. split; [by eapply renderHelp_blocks|]. split.
  - intros fl. by apply elem_of_VisitAll.
  - intros fl (n & Hn)%VisitAll_lookup. destruct (Hi _ _ Hn) as [t Ht].
    exists t. split; [done|]. unfold label_under. rewrite Ht. by destruct t.
Qed.

(** C7 (amended).  The flag block has one line for each flag of the flag
    set, in ascending byte-wise order of the flag names, which is the order
    of [VisitAll]. *)
Theorem flag_lines_in_name_order ρ node width h l fset :
  Flags node = Some l → h !! l = Some fset →
  keyed_by_name fset → introspectable fset →
  renderHelp ρ node width h =
    Some (header node +:+ description_block node width
          +:+ flags_block type_label node width (flag.VisitAll fset)
          +:+ subcommands_block node width
                (ρ CommandType 0%nat (SubCommands node))
                (ρ CommandType 1%nat (SubCommands node))) ∧
  StronglySorted String.le (flag.Name <$> flag.VisitAll fset) ∧
  flag.Name <$> flag.VisitAll fset ≡ₚ elements (dom (flag.formal fset)).
Proof.
  intros Hl Hh Hk Hi. split; [by eapply renderHelp_blocks|].
  split; [by apply VisitAll_sorted|by apply VisitAll_names_dom].
Qed.

End Package_facts.

(** ** The earlier form *)

Module Legacy_facts.
Import Legacy.

Section Package_facts.
Context `{L : Layout}.

(** The earlier [ProcessArgs] on a rejected argument vector: the
    [FlagError] carries the text of the parser's error. *)
Lemma legacy_flag_error_carries_parser_text ρ node args h l fset fset' perr :
  Flags node = Some l → h !! l = Some fset →
  flag.Parse args fset = (fset', flag.parse_error perr) →
  ProcessArgs ρ node args h
  = (Return [Name node] (Some (mkError FlagError (error_text perr) node args)),
     <[l := fset']> h).
Proof.
  destruct node as [n fl subs]. simpl. intros -> Hh Hparse. simpl.
  by rewrite Hh; simpl; rewrite Hparse.
Qed.

End Package_facts.

End Legacy_facts.

(** ** The properties at the sample inputs *)

Module Cases.
Import Reference Sample.

Lemma ascending_sound : range_sound ascending.
Proof. by intros A i m. Qed.

Lemma descending_sound : range_sound descending.
Proof. intros A i m. apply reverse_Permutation. Qed.

(** The resolution of [--verbose deploy status extra]. *)
Example resolves_three_levels :
  (ProcessArgs ascending root ["--verbose"; "deploy"; "status"; "extra"] memory).1
  = Return ["root"; "deploy"; "status"; "extra"] None.
Proof. vm_compute. reflexivity. Qed.

Example sets_verbose_at_the_root :
  (λ f, flag.content (flag.Value_ f)) <$>
    ((ProcessArgs ascending root ["--verbose"; "deploy"; "status"; "extra"] memory).2
       !! 1%positive ≫= λ fs, flag.formal fs !! "verbose")
  = Some "true".
Proof. vm_compute. reflexivity. Qed.

Ltac by_evaluation := apply (bool_decide_unpack _); vm_compute; exact I.

Lemma leaf_returns_leftover_arguments_witness :
  let fset' := (flag.Parse ["a"; "b"] (prepared status status_flags)).1 in
  ProcessArgs ascending status ["a"; "b"] memory
  = (Return (Name status :: flag.Args fset') None, <[3%positive := fset']> memory)
  ∧ flag.Args fset' `suffix_of` ["a"; "b"].
Proof.
  apply (leaf_returns_leftover_arguments ascending status ["a"; "b"] memory
           3%positive status_flags); reflexivity.
Defined.

Example leaf_path : 
  (ProcessArgs ascending status ["a"; "b"] memory).1 = Return ["status"; "a"; "b"] None.
Proof. vm_compute. reflexivity. Qed.

Lemma missing_or_invalid_command_witness :
  let fset' := (flag.Parse ["z"] (prepared root root_flags)).1 in
  ∃ help,
    renderHelp ascending root DefaultWidth (<[1%positive := fset']> memory) = Some help ∧
    match flag.Args fset' with
    | [] =>
        ProcessArgs ascending root ["z"] memory
        = (Return [Name root]
             (Some (mkError MissingCommandError
                      ("Missing COMMAND:" +:+ LF +:+ help) root ["z"])),
           <[1%positive := fset']> memory)
    | r0 :: _ =>
        SubCommands root !! r0 = None →
        ProcessArgs ascending root ["z"] memory
        = (Return [Name root]
             (Some (mkError InvalidCommandError
                      ("Invalid COMMAND: " +:+ r0 +:+ LF +:+ help) root ["z"])),
           <[1%positive := fset']> memory)
    end.
Proof.
  apply (missing_or_invalid_command ascending root ["z"] memory 1%positive root_flags);
    [reflexivity|reflexivity|by_evaluation|vm_compute; discriminate|reflexivity].
Defined.

Example missing_command :
  ∃ help, (ProcessArgs ascending root ["--verbose"] memory).1
          = Return ["root"] (Some (mkError MissingCommandError
                                     ("Missing COMMAND:" +:+ LF +:+ help) root
                                     ["--verbose"])).
Proof. eexists. vm_compute. reflexivity. Qed.

Example invalid_command :
  ∃ help, (ProcessArgs ascending root ["z"] memory).1
          = Return ["root"] (Some (mkError InvalidCommandError
                                     ("Invalid COMMAND: z" +:+ LF +:+ help) root ["z"])).
Proof. eexists. vm_compute. reflexivity. Qed.

Lemma error_path_runs_to_origin_witness :
  descent root (trail root bogus_args memory) ∧
  ["root"; "deploy"] = Name <$> trail root bogus_args memory ∧
  last (trail root bogus_args memory) = Some (c bogus_error) ∧
  ∃ args_k h_k,
    args_k `suffix_of` bogus_args ∧ a bogus_error = args_k ∧
    ProcessArgs ascending (c bogus_error) args_k h_k
    = (Return [Name (c bogus_error)] (Some bogus_error), bogus_run.2).
Proof.
  apply (error_path_runs_to_origin ascending root bogus_args memory
           ["root"; "deploy"] bogus_error (bogus_run.2)).
  vm_compute. reflexivity.
Defined.

Example error_names_its_origin :
  Name (c bogus_error) = "deploy" ∧ kind bogus_error = InvalidCommandError ∧
  a bogus_error = ["bogus"].
Proof. vm_compute. done. Qed.

Lemma renderHelp_returns_blocks_witness :
  is_Some (renderHelp ascending root 80 memory) ∧
  (flag_spec.keyed_by_name root_flags →
   renderHelp ascending root 80 memory =
     Some (header root +:+ description_block root 80
           +:+ flags_block type_label root 80 (flag.VisitAll root_flags)
           +:+ subcommands_block root 80
                 (ascending CommandType 0%nat (SubCommands root))
                 (ascending CommandType 1%nat (SubCommands root)))) ∧
  (LongDesc root = "" → ShortDesc root = "" → description_block root 80 = "") ∧
  (flag.formal root_flags = ∅ →
   flags_block type_label root 80 (flag.VisitAll root_flags) = "") ∧
  (SubCommands root = ∅ →
   subcommands_block root 80 (ascending CommandType 0%nat (SubCommands root))
     (ascending CommandType 1%nat (SubCommands root)) = "").
Proof.
  apply (renderHelp_returns_blocks ascending root 80 memory 1%positive root_flags);
    [reflexivity|reflexivity|by_evaluation].
Defined.

(** A command with no description, no flag and no sub-command: the header
    alone. *)
Example bare_command_renders_header :
  renderHelp ascending (mkCommandType "status" "" "" "" (Some 3%positive) ∅) 80 memory
  = Some ("Command: status" +:+ LF).
Proof. vm_compute. reflexivity. Qed.

Lemma nil_flags_panic_witness :
  (ProcessArgs ascending Example.cf ["show"] (Example.memory text_Set text_Set)).1
  = Panic ∧
  Legacy.ProcessArgs ascending (Legacy.mkCommandType "show" None ∅) ["show"]
    (Example.memory text_Set text_Set)
  = (Legacy.Panic, Example.memory text_Set text_Set).
Proof.
  destruct (nil_flags_panic ascending Example.cf ["show"]
              (Example.memory text_Set text_Set) Example.show
              (Legacy.mkCommandType "show" None ∅)) as [Hnow Hthen].
  split.
  - apply Hnow.
    + vm_compute. apply list_elem_of_In. right. left. reflexivity.
    + reflexivity.
  - apply Hthen. reflexivity.
Defined.

Lemma call_changes_only_visited_flag_sets_witness :
  let args := ["--verbose"; "deploy"; "status"; "extra"] in
  let h' := (ProcessArgs ascending root args memory).2 in
  (∀ l, Some l ∉ Flags <$> trail root args memory → h' !! l = memory !! l) ∧
  (∀ l, option_Forall2 kept (memory !! l) (h' !! l)) ∧
  (exclusive root →
   ∀ n l, n ∈ trail root args memory → Flags n = Some l → is_Some (memory !! l) →
          ∃ fs', h' !! l = Some fs' ∧ visited_state n fs').
Proof.
  apply (call_changes_only_visited_flag_sets ascending root
           ["--verbose"; "deploy"; "status"; "extra"] memory
           (ProcessArgs ascending root
              ["--verbose"; "deploy"; "status"; "extra"] memory).1).
  vm_compute. reflexivity.
Defined.

Example sample_tree_is_exclusive : exclusive root.
Proof. by_evaluation. Qed.

Example unvisited_flag_set_untouched :
  (ProcessArgs ascending root ["--verbose"; "deploy"; "status"; "extra"] memory).2
    !! 4%positive = Some destroy_flags.
Proof. vm_compute. reflexivity. Qed.

Lemma renderHelp_same_listing_same_text_witness :
  ((ascending CommandType 1%nat (SubCommands root)
    = descending CommandType 1%nat (SubCommands root)
    ∨ (size (SubCommands root) ≤ 1)%nat) →
   renderHelp ascending root 80 memory = renderHelp descending root 80 memory) ∧
  ((ascending Legacy.CommandType 0%nat (Legacy.SubCommands legacy_app)
    = descending Legacy.CommandType 0%nat (Legacy.SubCommands legacy_app)
    ∨ (size (Legacy.SubCommands legacy_app) ≤ 1)%nat) →
   Legacy.autoHelp ascending legacy_app memory
   = Legacy.autoHelp descending legacy_app memory).
Proof.
  apply (renderHelp_same_listing_same_text ascending descending root 80 memory
           legacy_app ascending_sound descending_sound).
Defined.

Example one_sub_command_one_text :
  renderHelp ascending root 80 memory = renderHelp descending root 80 memory.
Proof. vm_compute. reflexivity. Qed.

Lemma flag_lines_carry_type_labels_witness :
  renderHelp ascending root 80 memory =
    Some (header root +:+ description_block root 80
          +:+ flags_block type_label root 80 (flag.VisitAll root_flags)
          +:+ subcommands_block root 80
                (ascending CommandType 0%nat (SubCommands root))
                (ascending CommandType 1%nat (SubCommands root))) ∧
  (∀ fl, flag.formal root_flags !! flag.Name fl = Some fl →
         fl ∈ flag.VisitAll root_flags) ∧
  (∀ fl, fl ∈ flag.VisitAll root_flags →
     ∃ t, flag.getter (flag.Value_ fl) = Some t ∧
          label_under type_label fl =
          match t with
          | flag.TBool => ""
          | flag.TUint64 | flag.TUint => "UINT"
          | flag.TInt64 | flag.TInt => "INT"
          | flag.TString => "STRING"
          | flag.TFloat64 => "FLOAT"
          | flag.TOther _ => "VALUE"
          end).
Proof.
  apply (flag_lines_carry_type_labels ascending root 80 memory 1%positive root_flags);
    [reflexivity|reflexivity|by_evaluation|by_evaluation].
Defined.

Lemma flag_lines_in_name_order_witness :
  renderHelp ascending root 80 memory =
    Some (header root +:+ description_block root 80
          +:+ flags_block type_label root 80 (flag.VisitAll root_flags)
          +:+ subcommands_block root 80
                (ascending CommandType 0%nat (SubCommands root))
                (ascending CommandType 1%nat (SubCommands root))) ∧
  StronglySorted String.le (flag.Name <$> flag.VisitAll root_flags) ∧
  flag.Name <$> flag.VisitAll root_flags ≡ₚ elements (dom (flag.formal root_flags)).
Proof.
  apply (flag_lines_in_name_order ascending root 80 memory 1%positive root_flags);
    [reflexivity|reflexivity|by_evaluation|by_evaluation].
Defined.

Example flags_listed_by_name :
  flag.Name <$> flag.VisitAll root_flags = ["c"; "m"; "verbose"].
Proof. vm_compute. reflexivity. Qed.

(** *** Where the specification's wording fails *)

(** C4.  The earlier [ProcessArgs] ([commandflags.go]) on an undefined
    flag: the [FlagError] carries the parser's own message, which is not
    the help text that [autoHelp] renders for the command. *)
Lemma legacy_flag_error_is_parser_message :
  (Legacy.ProcessArgs ascending legacy_app ["-x"] memory).1
  = Legacy.Return ["app"]
      (Some (Legacy.mkError FlagError "flag provided but not defined: -x"
               legacy_app ["-x"])) ∧
  ∃ help, fst <$> Legacy.autoHelp ascending legacy_app memory = Some help ∧
          help ≠ "flag provided but not defined: -x".
Proof. split; [vm_compute; reflexivity|]. eexists. split; [vm_compute; reflexivity|done]. Qed.

(** The current [ProcessArgs] on the same arguments: the help text. *)
Example flag_error_is_help_text :
  ∃ help, renderHelp ascending deploy 80
            (ProcessArgs ascending deploy ["-x"] memory).2 = Some help ∧
          (ProcessArgs ascending deploy ["-x"] memory).1
          = Return ["deploy"] (Some (mkError FlagError help deploy ["-x"])).
Proof. eexists. vm_compute. done. Qed.

(** C5.  Two calls of [renderHelp] on the same command, width and store
    give different texts when their listing loops meet the two
    sub-commands of [deploy] in different orders. *)
Lemma renderHelp_text_varies_with_range_order :
  ¬ (∀ (ρ ρ' : MapRange) node width h,
       range_sound ρ → range_sound ρ' →
       renderHelp ρ node width h = renderHelp ρ' node width h).
Proof.
  intros Hclaim.
  specialize (Hclaim ascending descending deploy 80 memory
                ascending_sound descending_sound).
  vm_compute in Hclaim. discriminate Hclaim.
Qed.

(** C6.  The [uint] flag [m] of the root is labelled ["UINT"], not
    ["INT"]. *)
Lemma unsigned_flag_is_not_labelled_INT :
  ¬ (∀ ρ node width h l fset,
       Flags node = Some l → h !! l = Some fset →
       flag_spec.keyed_by_name fset → flag_spec.introspectable fset →
       renderHelp ρ node width h =
         Some (header node +:+ description_block node width
               +:+ flags_block claimed_label node width (flag.VisitAll fset)
               +:+ subcommands_block node width
                     (ρ CommandType 0%nat (SubCommands node))
                     (ρ CommandType 1%nat (SubCommands node)))).
Proof.
  intros Hclaim.
  specialize (Hclaim ascending root 80 memory 1%positive root_flags eq_refl eq_refl).
  assert (Hk : flag_spec.keyed_by_name root_flags) by by_evaluation.
  assert (Hi : flag_spec.introspectable root_flags) by by_evaluation.
  specialize (Hclaim Hk Hi). vm_compute in Hclaim. discriminate Hclaim.
Qed.

(** C7.  The root's flags are declared as [verbose], [m], [c]; their lines
    do not come in that order. *)
Lemma flag_lines_not_in_declaration_order :
  ¬ (∀ ρ node width h l n eh decls fset,
       Flags node = Some l → h !! l = Some fset →
       declare decls (flag.NewFlagSet n eh) = Some fset →
       renderHelp ρ node width h =
         Some (header node +:+ description_block node width
               +:+ flags_block type_label node width (declared decls)
               +:+ subcommands_block node width
                     (ρ CommandType 0%nat (SubCommands node))
                     (ρ CommandType 1%nat (SubCommands node)))).
Proof.
  intros Hclaim.
  specialize (Hclaim ascending root 80 memory 1%positive "flags" flag.ExitOnError
                [ (bool_value false, "verbose", "Enable verbose output");
                  (text_value flag.TUint "32", "m", "memory share (MB)");
                  (text_value flag.TFloat64 "1", "c", "cpu share") ]
                root_flags eq_refl eq_refl eq_refl).
  vm_compute in Hclaim. discriminate Hclaim.
Qed.

(** C9.  Every flag set of the tree has one owner, and the call on the
    root with no argument still renames the root's flag set from [flags]
    to [root] and takes it from [ExitOnError] to [ContinueOnError]. *)
Lemma visited_flag_set_is_renamed :
  ¬ (∀ ρ root args h o h',
       exclusive root → ProcessArgs ρ root args h = (o, h') →
       (∀ l, Some l ∉ Flags <$> trail root args h → h' !! l = h !! l) ∧
       (∀ l fs, h !! l = Some fs →
                ∃ fs', h' !! l = Some fs' ∧ flag_spec.same_frame fs fs')).
Proof.
  intros Hclaim.
  assert (Hex : exclusive root) by by_evaluation.
  destruct (Hclaim ascending root [] memory _ _ Hex (surjective_pairing _))
    as [_ Hkeeps].
  destruct (Hkeeps 1%positive root_flags eq_refl) as (fs' & Hfs' & _ & Hname & _).
  vm_compute in Hfs'. injection Hfs' as <-. vm_compute in Hname. discriminate Hname.
Qed.

End Cases.

(** ** More on the parser *)

Module parser_facts.
Import flag flag_spec flag_facts.

(** Arguments that do not open with a flag are left as they are, and so
    are the flags. *)
Lemma Parse_positionals_formal arguments f :
  opens_with_flag arguments = false →
  ∃ f', Parse arguments f = (f', parse_ok) ∧ Args f' = arguments ∧
        formal f' = formal f.
Proof.
  unfold Parse, opens_with_flag. intros Hno. simpl. unfold parseOne. simpl.
  destruct arguments as [|[|c0 [|c1 s]] rest]; simpl; eauto.
  rewrite Hno. simpl. eauto.
Qed.

End parser_facts.

(** ** Whole resolutions *)

Lemma keyed_tree_child c k sc :
  keyed_tree c = true → SubCommands c !! k = Some sc →
  Name sc = k ∧ keyed_tree sc = true.
Proof.
  destruct c as [n sd ld hp fl subs]. simpl. intros Hkeyed. revert k sc.
  revert Hkeyed.
  apply (map_fold_weak_ind
           (λ (r : bool) (m : gmap string CommandType),
              r = true → ∀ k sc, m !! k = Some sc →
              Name sc = k ∧ keyed_tree sc = true)).
  - intros _ k sc. by rewrite lookup_empty.
  - intros i x m r Hi IH [[Hname Hx]%andb_prop Hr]%andb_prop k sc.
    apply bool_decide_eq_true in Hname.
    destruct (decide (i = k)) as [<-|Hne].
    + rewrite lookup_insert_eq. by intros [= <-].
    + rewrite lookup_insert_ne by done. by apply IH.
Qed.

Section Resolution_facts.
Context `{L : Layout} `{G : Globals}.
Import flag_spec flag_facts.

(** A returned path opens with the name of the receiver and has at most one
    name or argument for each argument given. *)
Lemma ProcessArgs_path_shape ρ node :
  ∀ args h path err h',
  ProcessArgs ρ node args h = (Return path err, h') →
  ∃ rest, path = Name node :: rest ∧ (length rest ≤ length args)%nat.
Proof.
  induction node as [node IH] using CommandType_tree_ind.
  intros args h path err h' Hrun. rewrite ProcessArgs_unfold in Hrun.
  destruct (Flags node ≫= _) as [[l fset]|]; [|done].
  destruct (flag.Parse _ _) as [fset' res] eqn:Hparse.
  apply Parse_spec in Hparse as (_ & _ & Hsuf).
  apply suffix_length in Hsuf.
  destruct res; simpl in Hrun; try done.
  - destruct (decide _).
    { simplify_eq. eauto. }
    destruct (flag.Args fset') as [|r0 rest] eqn:Hrem.
    { destruct (renderHelp _ _ _ _); simplify_eq. exists []. split; [done|simpl; lia]. }
    destruct (SubCommands node !! r0) as [sc|] eqn:Hsc.
    + destruct (ProcessArgs ρ sc rest _) as [[cp err'| |] h1] eqn:Hsub; simplify_eq/=.
      destruct (IH _ _ Hsc _ _ _ _ _ Hsub) as (rest' & -> & Hlen).
      eexists. split; [done|]. simpl. lia.
    + destruct (renderHelp _ _ _ _); simplify_eq. exists []. split; [done|simpl; lia].
  - destruct (renderHelp _ _ _ _); simplify_eq. exists []. split; [done|simpl; lia].
Qed.

(** A successful call stops at a command without sub-commands, and what it
    returns after the names is what the flag set of that command left
    over. *)
Lemma ProcessArgs_success_last ρ node :
  ∀ args h path h',
  ProcessArgs ρ node args h = (Return path None, h') →
  ∃ leaf l fset',
    last (trail node args h) = Some leaf ∧ SubCommands leaf = ∅ ∧
    Flags leaf = Some l ∧ h' !! l = Some fset' ∧
    path = (Name <$> trail node args h) ++ flag.Args fset' ∧
    flag.Args fset' `suffix_of` args.
Proof.
  induction node as [node IH] using CommandType_tree_ind.
  intros args h path h' Hrun.
  rewrite ProcessArgs_unfold in Hrun. rewrite trail_unfold.
  destruct (Flags node) as [l|] eqn:Hl; simpl in *; [|done].
  destruct (h !! l) as [fset|] eqn:Hh; simpl in *; [|done].
  destruct (flag.Parse _ _) as [fset' res] eqn:Hparse.
  apply Parse_spec in Hparse as (_ & _ & Hsuf).
  destruct res; simpl in Hrun; try done.
  - destruct (decide _) as [Hsz|Hsz].
    + apply map_size_empty_iff in Hsz. simplify_eq/=.
      exists node, l, fset'. rewrite lookup_insert_eq.
      assert (Hstop : match flag.Args fset' with
                      | [] => []
                      | r0 :: rest =>
                          match SubCommands node !! r0 with
                          | Some sc => trail sc rest (<[l:=fset']> h)
                          | None => []
                          end
                      end = @nil CommandType).
      { destruct (flag.Args fset') as [|r0 rest]; [done|].
        by rewrite Hsz, lookup_empty. }
      rewrite Hstop. done.
    + destruct (flag.Args fset') as [|r0 rest] eqn:Hrem.
      { destruct (renderHelp _ _ _ _); done. }
      destruct (SubCommands node !! r0) as [sc|] eqn:Hsc.
      * destruct (ProcessArgs ρ sc rest _) as [[cp err'| |] h1] eqn:Hsub;
          simplify_eq/=.
        destruct (IH _ _ Hsc _ _ _ _ Hsub)
          as (leaf & l1 & fs1 & Hlast & Hleaf & Hl1 & Hh1 & -> & Hleft).
        exists leaf, l1, fs1. split.
        { destruct (trail_descent sc rest (<[l:=fset']> h)); by rewrite last_cons, Hlast. }
        do 4 (split; [done|]).
        etrans; [done|]. etrans; [|done]. by apply suffix_cons_r.
      * destruct (renderHelp _ _ _ _); done.
  - destruct (renderHelp _ _ _ _); done.
Qed.

(** A call that returns its own name alone with an error has made the
    error itself. *)
Lemma ProcessArgs_local_error ρ node args h err h' :
  ProcessArgs ρ node args h = (Return [Name node] (Some err), h') →
  c err = node ∧ a err = args ∧
  ∃ l fset fset' res help,
    Flags node = Some l ∧ h !! l = Some fset ∧
    flag.Parse args (prepared node fset) = (fset', res) ∧
    h' = <[l := fset']> h ∧
    renderHelp ρ node DefaultWidth h' = Some help ∧
    error_cause err fset' res help.
Proof.
  intros Hrun. rewrite ProcessArgs_unfold in Hrun.
  destruct (Flags node) as [l|] eqn:Hl; simpl in Hrun; [|done].
  destruct (h !! l) as [fset|] eqn:Hh; simpl in Hrun; [|done].
  destruct (flag.Parse _ _) as [fset' res] eqn:Hparse.
  destruct res; simpl in Hrun; try done.
  - destruct (decide _) as [Hsz|Hsz]; [done|].
    apply map_size_non_empty_iff in Hsz.
    destruct (flag.Args fset') as [|r0 rest] eqn:Hrem.
    { destruct (renderHelp _ _ _ _) as [help|] eqn:Hhelp; simplify_eq/=.
      split; [done|]. split; [done|].
      exists l, fset, fset', flag.parse_ok, help. by repeat split. }
    destruct (SubCommands node !! r0) as [sc|] eqn:Hsc.
    + destruct (ProcessArgs ρ sc rest _) as [[cp err'| |] h1] eqn:Hsub; simplify_eq/=.
      by destruct (ProcessArgs_path_shape _ _ _ _ _ _ _ Hsub) as (? & ? & _).
    + destruct (renderHelp _ _ _ _) as [help|] eqn:Hhelp; simplify_eq/=.
      split; [done|]. split; [done|].
      exists l, fset, fset', flag.parse_ok, help. repeat split; eauto.
  - destruct (renderHelp _ _ _ _) as [help|] eqn:Hhelp; simplify_eq/=.
    split; [done|]. split; [done|].
    exists l, fset, fset', (flag.parse_error e0), help. repeat split; eauto.
Qed.

(** The flag set of the last visited command ends in the state the call
    gave it, whoever else holds the same flag set. *)
Lemma ProcessArgs_last_visited ρ node :
  ∀ args h o h' n l,
  ProcessArgs ρ node args h = (o, h') →
  last (trail node args h) = Some n → Flags n = Some l → is_Some (h !! l) →
  ∃ fs', h' !! l = Some fs' ∧ visited_state n fs'.
Proof.
  induction node as [node IH] using CommandType_tree_ind.
  intros args h o h' n l Hrun Hlast Hn [fs0 Hfs0].
  rewrite ProcessArgs_unfold in Hrun. rewrite trail_unfold in Hlast.
  destruct (Flags node) as [l1|] eqn:Hl; simpl in *; [|congruence].
  destruct (h !! l1) as [fset|] eqn:Hh; simpl in *.
  2:{ injection Hlast as <-. congruence. }
  destruct (flag.Parse _ _) as [fset' res] eqn:Hparse.
  destruct (parse_level_store _ _ _ _ _ _ _ Hh Hparse) as (_ & _ & Hvis).
  assert (Hstop : h' = <[l1:=fset']> h → n = node →
                  ∃ fs', h' !! l = Some fs' ∧ visited_state n fs').
  { intros -> ->. assert (l = l1) as -> by congruence.
    exists fset'. by rewrite lookup_insert_eq. }
  destruct res; simpl in Hrun, Hlast;
    try (apply Hstop; [by simplify_eq|by destruct (flag.Args fset'); simplify_eq/=]).
  destruct (decide _) as [Hsz|Hsz].
  { apply map_size_empty_iff in Hsz. apply Hstop; [by simplify_eq|].
    destruct (flag.Args fset'); [by simplify_eq/=|].
    rewrite Hsz, lookup_empty in Hlast. by simplify_eq/=. }
  destruct (flag.Args fset') as [|r0 rest].
  { destruct (renderHelp _ _ _ _); (apply Hstop; by simplify_eq/=). }
  destruct (SubCommands node !! r0) as [sc|] eqn:Hsc.
  2:{ destruct (renderHelp _ _ _ _); (apply Hstop; by simplify_eq/=). }
  destruct (ProcessArgs ρ sc rest _) as [o1 h1] eqn:Hsub.
  assert (h' = h1) as -> by (destruct o1; by simplify_eq).
  apply (IH _ _ Hsc rest (<[l1:=fset']> h) o1 h1 n l Hsub); [|done|].
  - rewrite trail_unfold in Hlast |- *. exact Hlast.
  - destruct (decide (l = l1)) as [->|Hne].
    + rewrite lookup_insert_eq. eauto.
    + rewrite lookup_insert_ne by done. eauto.
  - destruct (renderHelp _ _ _ _); (apply Hstop; by simplify_eq/=).
Qed.

Lemma ProcessArgs_positionals ρ node :
  ∀ args h path err h',
  keyed_tree node = true → Forall (λ s, flag_shaped s = false) args →
  ProcessArgs ρ node args h = (Return path err, h') →
  path `prefix_of` Name node :: args ∧
  (err = None → path = Name node :: args) ∧
  ∀ l, flag.formal <$> h' !! l = flag.formal <$> h !! l.
Proof.
  induction node as [node IH] using CommandType_tree_ind.
  intros args h path err h' Hkeyed Hargs Hrun. rewrite ProcessArgs_unfold in Hrun.
  destruct (Flags node) as [l|] eqn:Hl; simpl in Hrun; [|done].
  destruct (h !! l) as [fset|] eqn:Hh; simpl in Hrun; [|done].
  assert (Hno : opens_with_flag args = false).
  { destruct Hargs as [|s rest Hs _]; [done|]. exact Hs. }
  destruct (parser_facts.Parse_positionals_formal args (prepared node fset) Hno)
    as (fset' & Hparse & Hrem & Hformal).
  rewrite Hparse in Hrun. simpl in Hrun. rewrite Hrem in Hrun.
  assert (Hstore : ∀ l0, flag.formal <$> <[l:=fset']> h !! l0 = flag.formal <$> h !! l0).
  { intros l0. destruct (decide (l = l0)) as [<-|Hne].
    - rewrite lookup_insert_eq, Hh. simpl. by rewrite Hformal.
    - by rewrite lookup_insert_ne. }
  assert (Hone : [Name node] `prefix_of` Name node :: args).
  { by exists args. }
  destruct (decide _).
  { by simplify_eq. }
  destruct args as [|r0 rest].
  { destruct (renderHelp _ _ _ _); by simplify_eq. }
  destruct (SubCommands node !! r0) as [sc|] eqn:Hsc.
  2:{ destruct (renderHelp _ _ _ _); by simplify_eq. }
  destruct (keyed_tree_child _ _ _ Hkeyed Hsc) as [Hname Hkeyed'].
  apply Forall_cons in Hargs as [_ Hrest].
  destruct (ProcessArgs ρ sc rest _) as [[cp err'| |] h1] eqn:Hsub; simplify_eq/=.
  destruct (IH _ _ Hsc _ _ _ _ _ Hkeyed' Hrest Hsub) as (Hpre & Hall & Hst).
  split; [by apply prefix_cons|]. split.
  - intros ->. by rewrite Hall.
  - intros l0. by rewrite Hst.
Qed.

(** X1.  A successful call returns the names of the visited commands,
    root first, then the arguments that the flag set of the last of them
    left over, as that flag set holds them after the call; they are a suffix
    of the argument vector, and that last command has no sub-command. *)
Theorem success_ends_at_a_leaf ρ root args h path h' :
  ProcessArgs ρ root args h = (Return path None, h') →
  ∃ leaf l fset',
    last (trail root args h) = Some leaf ∧ SubCommands leaf = ∅ ∧
    Flags leaf = Some l ∧ h' !! l = Some fset' ∧
    path = (Name <$> trail root args h) ++ flag.Args fset' ∧
    flag.Args fset' `suffix_of` args.
Proof. apply ProcessArgs_success_last. Qed.

(** X2.  Whatever a call returns, the path opens with the name of the root
    and holds at most one further entry for each argument given. *)
Theorem path_opens_with_root_and_is_bounded ρ root args h path err h' :
  ProcessArgs ρ root args h = (Return path err, h') →
  ∃ rest, path = Name root :: rest ∧ (length rest ≤ length args)%nat.
Proof. apply ProcessArgs_path_shape. Qed.

(** X3.  The kind of a returned error tells what happened at the command
    the error names, on the arguments the error carries: a [FlagError] means
    the parser rejected them; a [MissingCommandError] means they parsed, the
    command has sub-commands and no argument was left; an
    [InvalidCommandError] means they parsed and the first argument left is
    no key of the sub-commands.  The text embeds the help of that command,
    rendered on the store the call returns. *)
Theorem error_kind_tells_the_cause ρ root args h path err h' :
  ProcessArgs ρ root args h = (Return path (Some err), h') →
  ∃ h_k l fset fset' res help,
    Flags (c err) = Some l ∧ h_k !! l = Some fset ∧
    flag.Parse (a err) (prepared (c err) fset) = (fset', res) ∧
    h' = <[l := fset']> h_k ∧
    renderHelp ρ (c err) DefaultWidth h' = Some help ∧
    error_cause err fset' res help.
Proof.
  intros Hrun.
  destruct (ProcessArgs_error_origin _ _ _ _ _ _ _ Hrun)
    as (_ & _ & args_k & h_k & _ & Ha & Horigin).
  destruct (ProcessArgs_local_error _ _ _ _ _ _ Horigin)
    as (_ & _ & l & fset & fset' & res & help & ? & ? & ? & ? & ? & ?).
  exists h_k, l, fset, fset', res, help. by rewrite Ha.
Qed.

(** X4.  The current form never ends the process through the parser: a
    call returns or panics, whatever error handling the flag sets were
    created with. *)
Theorem call_never_exits ρ root args h : (ProcessArgs ρ root args h).1 ≠ Exit.
Proof. apply ProcessArgs_never_exits. Qed.

(** X5.  A call returns a path, with or without an error, when every
    visited command has its flag set and the flag values in the store can
    be introspected. *)
Theorem call_returns_with_flag_sets_present ρ root args h :
  (∀ n, n ∈ trail root args h → ∃ l fs, Flags n = Some l ∧ h !! l = Some fs) →
  (∀ l fs, h !! l = Some fs → introspectable fs) →
  ∃ path err, (ProcessArgs ρ root args h).1 = Return path err.
Proof. apply ProcessArgs_returns. Qed.

(** X6.  After a call, the flag set of the last visited command carries
    that command's name, [ContinueOnError], the silent [Usage] and the
    parsed mark, also when other commands share the flag set. *)
Theorem last_visited_command_marks_its_flag_set ρ root args h o h' n l :
  ProcessArgs ρ root args h = (o, h') →
  last (trail root args h) = Some n → Flags n = Some l → is_Some (h !! l) →
  ∃ fs', h' !! l = Some fs' ∧ visited_state n fs'.
Proof. apply ProcessArgs_last_visited. Qed.

(** X7.  On a tree whose sub-commands are filed under their own names and
    on arguments none of which has the shape of a flag, a call that returns
    gives back the root's name followed by the arguments themselves when it
    succeeds, and a prefix of that when it fails; either way no flag of any
    flag set changes. *)
Theorem plain_arguments_come_back ρ root args h path err h' :
  keyed_tree root = true → Forall (λ s, flag_shaped s = false) args →
  ProcessArgs ρ root args h = (Return path err, h') →
  path `prefix_of` Name root :: args ∧
  (err = None → path = Name root :: args) ∧
  ∀ l, flag.formal <$> h' !! l = flag.formal <$> h !! l.
Proof. apply ProcessArgs_positionals. Qed.

End Resolution_facts.

(** ** The help text and the flag set *)

Module visit_facts.
Import flag flag_spec flag_facts.

Lemma same_decls_dom (m m' : gmap string Flag) : same_decls m m' → dom m = dom m'.
Proof.
  intros Hd. apply set_eq. intros n. rewrite !elem_of_dom.
  specialize (Hd n). destruct Hd; split; intros [? ?]; simplify_eq; eauto.
Qed.

Lemma lookups_same_decls (m m' : gmap string Flag) (ks : list string) :
  same_decls m m' →
  Forall2 same_decl (omap (λ n, m !! n) ks) (omap (λ n, m' !! n) ks).
Proof.
  intros Hd. induction ks as [|k ks IH]; simpl; [constructor|].
  specialize (Hd k). destruct Hd; [by constructor|done].
Qed.

(** [VisitAll] visits flags with the same declarations on flag sets with
    the same declarations. *)
Lemma VisitAll_same_decls f f' :
  same_decls (formal f) (formal f') → Forall2 same_decl (VisitAll f) (VisitAll f').
Proof.
  intros Hd. unfold VisitAll, sortFlags. rewrite <- (same_decls_dom _ _ Hd).
  by apply lookups_same_decls.
Qed.

End visit_facts.

Section Help_facts.
Context `{L : Layout} `{G : Globals}.
Import flag_spec flag_facts.

Lemma flag_label_same_decl fl fl' : same_decl fl fl' → flag_label fl = flag_label fl'.
Proof. intros (_ & _ & _ & Hg & _). unfold flag_label. by rewrite Hg. Qed.

(** The accumulation of [appendFlag] over flags with the same declarations:
    the same labels and width, and flags with the same declarations. *)
Lemma visit_same_decls fs fs' :
  Forall2 same_decl fs fs' →
  ∀ fl0 fl0' fa0 mw0, Forall2 same_decl fl0 fl0' →
  match visit (fl0, fa0, mw0) fs, visit (fl0', fa0, mw0) fs' with
  | Some (fl, fa, mw), Some (fl', fa', mw') =>
      Forall2 same_decl fl fl' ∧ fa = fa' ∧ mw = mw'
  | None, None => True
  | _, _ => False
  end.
Proof.
  induction 1 as [|f f' fs fs' Hf _ IH]; intros fl0 fl0' fa0 mw0 H0; simpl; [done|].
  rewrite <- (flag_label_same_decl _ _ Hf).
  destruct (flag_label f) as [label|]; [|done].
  pose proof Hf as (Hname & Hrest). rewrite <- Hname.
  apply IH. apply Forall2_app; [done|]. constructor; [exact Hf|constructor].
Qed.

Lemma flag_lines_same_decls st colw fa fl fl' :
  Forall2 same_decl fl fl' →
  flag_line st colw fa <$> fl = flag_line st colw fa <$> fl'.
Proof.
  induction 1 as [|f f' fl fl' (Hname & Husage & _) _ IH]; [done|].
  rewrite !fmap_cons, IH. unfold flag_line. by rewrite Hname, Husage.
Qed.

(** [renderHelp] reads the declarations of the flags, not their values. *)
Lemma renderHelp_same_decls ρ node width (h h' : store) :
  (∀ l, option_Forall2 kept (h !! l) (h' !! l)) →
  renderHelp ρ node width h = renderHelp ρ node width h'.
Proof.
  intros Hkept. unfold renderHelp.
  destruct (Flags node) as [l|]; simpl; [|done].
  specialize (Hkept l). destruct Hkept as [fset fset' [_ Hd]|]; simpl; [|done].
  pose proof (visit_same_decls _ _ (visit_facts.VisitAll_same_decls _ _ Hd)
                [] [] ∅ 0 (Forall2_nil_2 _ _ _)) as Hvisit.
  destruct (visit _ (flag.VisitAll fset)) as [[[fl fa] mw]|];
    destruct (visit _ (flag.VisitAll fset')) as [[[fl' fa'] mw']|]; try done.
  destruct Hvisit as (Hfl & <- & <-).
  rewrite (flag_lines_same_decls _ _ _ _ _ Hfl).
  by rewrite (Forall2_length _ _ _ Hfl).
Qed.

(** X8.  The help of a command does not depend on what was parsed: after
    any call of [ProcessArgs], on any tree and arguments, [renderHelp] gives
    for every command the text it gave before, the range loops taken in the
    same order. *)
Theorem help_is_the_same_after_a_call ρ ρ' root args h o h' node width :
  ProcessArgs ρ' root args h = (o, h') →
  renderHelp ρ node width h' = renderHelp ρ node width h.
Proof.
  intros Hrun. symmetry. apply renderHelp_same_decls.
  by destruct (ProcessArgs_frame ρ' root args h o h' Hrun) as [_ Hkept].
Qed.








Lemma widest_name_shown (vs vs' : list (string * CommandType)) :
  shown <$> vs = shown <$> vs' → widest_name vs = widest_name vs'.
Proof.
  unfold widest_name. generalize 0. revert vs'.
  induction vs as [|kv vs IH]; intros [|kv' vs'] m0 Heq; simplify_eq/=; [done|].
  unfold shown in *. simplify_eq/=.
  match goal with H : Name _ = Name _ |- _ => rewrite H end. by apply IH.
Qed.

Lemma subcommand_lines_shown st w (vs vs' : list (string * CommandType)) :
  shown <$> vs = shown <$> vs' →
  (λ kv : string * CommandType, subcommand_line st w kv.2) <$> vs
  = (λ kv : string * CommandType, subcommand_line st w kv.2) <$> vs'.
Proof.
  revert vs'. induction vs as [|kv vs IH]; intros [|kv' vs'] Heq; simplify_eq/=; [done|].
  unfold shown in *. simplify_eq/=. f_equal; [|by apply IH].
  unfold subcommand_line.
  repeat match goal with H : _ = _ |- _ => rewrite H; clear H end. done.
Qed.

(** X10.  [renderHelp] reads of a command its name, its flag set, its long
    description (the short one when the long one is empty) and, of each
    sub-command, the name and the short description.  The [Help] text, the
    keys, and the flags, long descriptions and own sub-commands of the
    sub-commands do not enter the text. *)
Theorem help_reads_names_and_short_descriptions ρ node node' width h :
  range_sound ρ →
  Name node' = Name node → Flags node' = Flags node →
  LongDesc node' = LongDesc node →
  (len (LongDesc node) > 0 ∨ ShortDesc node' = ShortDesc node) →
  (∀ i, shown <$> ρ CommandType i (SubCommands node')
        = shown <$> ρ CommandType i (SubCommands node)) →
  renderHelp ρ node' width h = renderHelp ρ node width h.
Proof.
  intros Hsound Hname Hflags Hlong Hshort Hshown. unfold renderHelp.
  rewrite Hname, Hflags, Hlong.
  assert (Hsize : size (SubCommands node') = size (SubCommands node)).
  { rewrite <- !length_map_to_list.
    rewrite <- (Hsound CommandType 0%nat (SubCommands node')).
    rewrite <- (Hsound CommandType 0%nat (SubCommands node)).
    rewrite <- (length_fmap shown (ρ CommandType 0%nat (SubCommands node'))).
    by rewrite Hshown, length_fmap. }
  rewrite Hsize.
  pose proof (widest_name_shown _ _ (Hshown 0%nat)) as Hwide.
  unfold widest_name in Hwide. rewrite Hwide.
  rewrite (subcommand_lines_shown _ _ _ _ (Hshown 1%nat)).
  destruct Hshort as [Hl|Hs].
  - destruct (decide (len (LongDesc node) > 0)) as [?|Hn]; [done|by destruct (Hn Hl)].
  - by rewrite Hs.
Qed.

End Help_facts.

(** ** The two forms of the package *)

Module core_facts.
Import flag flag_spec flag_facts.

(** A round of the parser reads the arguments and the flags of the flag
    set, nothing else. *)
Lemma parseOne_core f g :
  args f = args g → formal f = formal g →
  (parseOne f).1.2 = (parseOne g).1.2 ∧ (parseOne f).2 = (parseOne g).2 ∧
  args (parseOne f).1.1 = args (parseOne g).1.1 ∧
  formal (parseOne f).1.1 = formal (parseOne g).1.1.
Proof.
  destruct f as [u n p ac fo ar eh o], g as [u' n' p' ac' fo' ar' eh' o'].
  simpl. intros <- <-. unfold parseOne. simpl.
  repeat (case_match; simplify_eq/=; try done).
Qed.

Lemma parse_loop_core n : ∀ f g,
  args f = args g → formal f = formal g →
  errorHandling f = errorHandling g →
  (parse_loop n f).2 = (parse_loop n g).2 ∧
  args (parse_loop n f).1 = args (parse_loop n g).1 ∧
  formal (parse_loop n f).1 = formal (parse_loop n g).1.
Proof.
  induction n as [|n IH]; intros f g Ha Hf He; simpl; [done|].
  destruct (parseOne_core f g Ha Hf) as (Hseen & Herr & Ha' & Hf').
  destruct (parseOne f) as [[f1 seen] err] eqn:H1.
  destruct (parseOne g) as [[g1 seen'] err'] eqn:H2. simpl in *. subst seen' err'.
  apply parseOne_spec in H1 as ((_ & _ & He1 & _) & _).
  apply parseOne_spec in H2 as ((_ & _ & He2 & _) & _).
  destruct seen; [apply IH; congruence|].
  destruct err as [e|]; [|done].
  rewrite He1, He2, He. by destruct (errorHandling g).
Qed.

Lemma Parse_core arguments f g :
  formal f = formal g → errorHandling f = errorHandling g →
  (Parse arguments f).2 = (Parse arguments g).2 ∧
  Args (Parse arguments f).1 = Args (Parse arguments g).1 ∧
  formal (Parse arguments f).1 = formal (Parse arguments g).1.
Proof. intros Hf He. unfold Parse, Args. by apply parse_loop_core. Qed.

End core_facts.

Section Forms_facts.
Context `{L : Layout} `{G : Globals}.
Import flag_spec flag_facts.

(** The body of the earlier [ProcessArgs] as the source has it. *)
Lemma Legacy_ProcessArgs_unfold ρ (c : Legacy.CommandType) args h :
  Legacy.ProcessArgs ρ c args h =
  match Legacy.Flags c ≫= (λ l, (l,.) <$> h !! l) with
  | None => (Legacy.Panic, h)
  | Some (l, fset) =>
      let '(fset, res) := flag.Parse args fset in
      let h := <[l := fset]> h in
      match res with
      | flag.parse_panic _ => (Legacy.Panic, h)
      | flag.parse_exit => (Legacy.Exit, h)
      | flag.parse_error err =>
          (Legacy.Return [Legacy.Name c]
             (Some (Legacy.mkError FlagError (Legacy.error_text err) c args)), h)
      | flag.parse_ok =>
          let remaining := flag.Args fset in
          if decide (size (Legacy.SubCommands c) = 0)%nat
          then (Legacy.Return (Legacy.Name c :: remaining) None, h)
          else
            match remaining with
            | [] =>
                match Legacy.autoHelp ρ c h with
                | None => (Legacy.Panic, h)
                | Some (help, h) =>
                    (Legacy.Return [Legacy.Name c]
                       (Some (Legacy.mkError MissingCommandError
                                ("Missing COMMAND:" +:+ LF +:+ help) c args)), h)
                end
            | r0 :: rest =>
                match Legacy.SubCommands c !! r0 with
                | None =>
                    match Legacy.autoHelp ρ c h with
                    | None => (Legacy.Panic, h)
                    | Some (help, h) =>
                        (Legacy.Return [Legacy.Name c]
                           (Some (Legacy.mkError InvalidCommandError
                                    ("Invalid COMMAND: " +:+ r0 +:+ LF +:+ help)
                                    c args)), h)
                    end
                | Some sc =>
                    match Legacy.ProcessArgs ρ sc rest h with
                    | (Legacy.Return cp err, h) =>
                        (Legacy.Return (Legacy.Name c :: cp) err, h)
                    | (o, h) => (o, h)
                    end
                end
            end
      end
  end.
Proof.
  destruct c as [n fl subs]; simpl.
  destruct (fl ≫= _) as [[l fset]|]; [|done].
  destruct (flag.Parse _ _) as [fset' res]. destruct res; try done.
  destruct (decide _); [done|]. destruct (flag.Args fset') as [|r0 rest]; [done|].
  rewrite lookup_fmap. by destruct (subs !! r0).
Qed.

Lemma forget_unfold c :
  forget c = Legacy.mkCommandType (Name c) (Flags c) (forget <$> SubCommands c).
Proof. by destruct c. Qed.

Lemma listing_appended (base : string) (vs : list (string * Legacy.CommandType)) :
  foldl (λ r (kv : string * Legacy.CommandType), r +:+ kv.1 +:+ " ") base vs
  = base +:+ concat_lines ((λ kv : string * Legacy.CommandType, kv.1 +:+ " ") <$> vs).
Proof.
  revert base. induction vs as [|kv vs IH]; intros base; simpl.
  - by rewrite append_empty_r.
  - rewrite IH. by rewrite !append_assoc.
Qed.

(** [autoHelp] on a command whose flag set is at hand: the text, and the
    flag set redirected to the buffer. *)
Lemma autoHelp_text ρ (c : Legacy.CommandType) (h : store) l fset :
  Legacy.Flags c = Some l → h !! l = Some fset →
  Legacy.autoHelp ρ c h =
  Some (Legacy.Name c +:+ " OPTIONS COMMAND" +:+ LF +:+ "OPTIONS:" +:+ LF
        +:+ PrintDefaults (flag.SetOutput flag.writer_buffer fset)
        +:+ "COMMAND is one of:" +:+ LF
        +:+ concat_lines ((λ kv : string * Legacy.CommandType, kv.1 +:+ " ")
                            <$> ρ Legacy.CommandType 0%nat (Legacy.SubCommands c)),
        <[l := flag.SetOutput flag.writer_buffer fset]> h).
Proof.
  intros Hl Hh. unfold Legacy.autoHelp. rewrite Hl. simpl. rewrite Hh. simpl.
  rewrite listing_appended. by rewrite !append_assoc.
Qed.

(** X11.  The earlier form, on a command with sub-commands whose parse
    succeeds: with no argument left it returns a [MissingCommandError], with a
    first argument that is no key an [InvalidCommandError]; the text embeds
    the text of [autoHelp], and the flag set of the command is left with its
    output redirected to the buffer [autoHelp] printed into. *)
Theorem earlier_form_missing_or_invalid ρ node args h l fset fset' :
  Legacy.Flags node = Some l → h !! l = Some fset →
  Legacy.SubCommands node ≠ ∅ →
  flag.Parse args fset = (fset', flag.parse_ok) →
  match flag.Args fset' with
  | [] =>
      Legacy.ProcessArgs ρ node args h
      = (Legacy.Return [Legacy.Name node]
           (Some (Legacy.mkError MissingCommandError
                    ("Missing COMMAND:" +:+ LF +:+ earlier_help ρ node fset')
                    node args)),
         <[l := flag.SetOutput flag.writer_buffer fset']> h)
  | r0 :: _ =>
      Legacy.SubCommands node !! r0 = None →
      Legacy.ProcessArgs ρ node args h
      = (Legacy.Return [Legacy.Name node]
           (Some (Legacy.mkError InvalidCommandError
                    ("Invalid COMMAND: " +:+ r0 +:+ LF +:+ earlier_help ρ node fset')
                    node args)),
         <[l := flag.SetOutput flag.writer_buffer fset']> h)
  end.
Proof.
  intros Hl Hh Hsubs Hparse.
  rewrite Legacy_ProcessArgs_unfold, Hl. simpl. rewrite Hh. simpl. rewrite Hparse.
  simpl. rewrite decide_False by (by rewrite map_size_empty_iff).
  pose proof (autoHelp_text ρ node (<[l:=fset']> h) l fset' Hl
                (lookup_insert_eq _ _ _)) as Hhelp.
  rewrite insert_insert_eq in Hhelp. fold (earlier_help ρ node fset') in Hhelp.
  destruct (flag.Args fset') as [|r0 rest].
  - by rewrite Hhelp.
  - intros ->. by rewrite Hhelp.
Qed.

Lemma akin_stores_insert (hL h : store) l fL f :
  akin_stores hL h → akin fL f → akin_stores (<[l := fL]> hL) (<[l := f]> h).
Proof.
  intros Hst Hak l0. destruct (decide (l = l0)) as [<-|Hne].
  - rewrite !lookup_insert_eq. by constructor.
  - rewrite !lookup_insert_ne by done. apply Hst.
Qed.

(** The two forms side by side, by induction on the tree. *)
Lemma forms_agree ρL ρ node :
  ∀ args hL h,
  akin_stores hL h →
  (∀ l fs, h !! l = Some fs → introspectable fs) →
  agree (Legacy.ProcessArgs ρL (forget node) args hL).1 (ProcessArgs ρ node args h).1 ∧
  akin_stores (Legacy.ProcessArgs ρL (forget node) args hL).2
    (ProcessArgs ρ node args h).2.
Proof.
  induction node as [node IH] using CommandType_tree_ind.
  intros args hL h Hst Hintro.
  rewrite Legacy_ProcessArgs_unfold, ProcessArgs_unfold, forget_unfold. simpl.
  destruct (Flags node) as [l|] eqn:Hl; simpl; [|done].
  pose proof (Hst l) as Hl0.
  destruct (hL !! l) as [fL|] eqn:HhL; destruct (h !! l) as [fset|] eqn:Hh;
    inversion Hl0 as [? ? [Hformal HehL]|]; subst; simpl; [|done].
  destruct (core_facts.Parse_core args fL (prepared node fset) Hformal HehL)
    as (Hres & Hargs & Hformal').
  destruct (flag.Parse args fL) as [fL' resL] eqn:HparseL.
  destruct (flag.Parse args (prepared node fset)) as [fset' res] eqn:Hparse.
  simpl in Hres, Hargs, Hformal'. subst resL.
  assert (HehL' : flag.errorHandling fL' = flag.ContinueOnError).
  { apply Parse_spec in HparseL as ((_ & _ & He & _) & _). congruence. }
  assert (Hst1 : akin_stores (<[l:=fL']> hL) (<[l:=fset']> h)).
  { by apply akin_stores_insert. }
  destruct (renderHelp_after_parse ρ node args h l fset fset' res Hl
              (Hintro _ _ Hh) Hparse) as [help Hhelp].
  pose proof (autoHelp_text ρL (Legacy.mkCommandType (Name node) (Some l)
                                  (forget <$> SubCommands node))
                (<[l:=fL']> hL) l fL' eq_refl (lookup_insert_eq _ _ _)) as HhelpL.
  rewrite insert_insert_eq in HhelpL.
  assert (Hst2 : akin_stores (<[l:=flag.SetOutput flag.writer_buffer fL']> hL)
                   (<[l:=fset']> h)).
  { by apply akin_stores_insert. }
  destruct (Parse_continue _ _ _ _ (eq_refl : flag.errorHandling (prepared node fset)
                                             = flag.ContinueOnError) Hparse)
    as [->|[perr ->]]; simpl.
  - rewrite map_size_fmap. rewrite <- Hargs.
    destruct (decide _) as [Hsz|Hsz]; simpl.
    { split; [|done]. split; [done|constructor]. }
    destruct (flag.Args fL') as [|r0 rest].
    { rewrite HhelpL, Hhelp. simpl. split; [|done]. split; [done|].
      constructor. repeat split; simpl; try done. by rewrite forget_unfold, Hl. }
    rewrite lookup_fmap.
    destruct (SubCommands node !! r0) as [sc|] eqn:Hsc; simpl.
    + assert (Hintro1 : ∀ l0 fs, <[l:=fset']> h !! l0 = Some fs → introspectable fs).
      { intros l0 fs0. destruct (decide (l = l0)) as [<-|Hne].
        - rewrite lookup_insert_eq. intros [= <-].
          apply Parse_spec in Hparse as (Hfr & _).
          eapply same_frame_introspectable; [done|]. exact (Hintro _ _ Hh).
        - rewrite lookup_insert_ne by done. apply Hintro. }
      destruct (IH _ _ Hsc rest _ _ Hst1 Hintro1) as [Hagree Hst'].
      destruct (Legacy.ProcessArgs ρL (forget sc) rest _) as [oL hL1].
      destruct (ProcessArgs ρ sc rest _) as [o h1]. simpl in *.
      destruct oL as [pL eL| |], o as [p e0| |]; simpl in *; try done.
      destruct Hagree as [-> He]. done.
    + rewrite HhelpL, Hhelp. simpl. split; [|done]. split; [done|].
      constructor. repeat split; simpl; try done. by rewrite forget_unfold, Hl.
  - rewrite Hhelp. simpl. split; [|done]. split; [done|].
    constructor. repeat split; simpl; try done. by rewrite forget_unfold, Hl.
Qed.

(** X12.  The two forms of [ProcessArgs] resolve alike.  On a tree seen in
    both forms, with stores that hold the same flags at the same addresses,
    the earlier one under [ContinueOnError] and the current one with values
    that can be introspected, both calls panic or both return; they return
    the same path and, if any, errors of the same kind, on the same command,
    with the same arguments; and the stores hold the same flags afterwards.
    Only the texts of the errors differ. *)
Theorem the_two_forms_resolve_alike ρL ρ root args hL h :
  akin_stores hL h →
  (∀ l fs, h !! l = Some fs → introspectable fs) →
  agree (Legacy.ProcessArgs ρL (forget root) args hL).1 (ProcessArgs ρ root args h).1 ∧
  akin_stores (Legacy.ProcessArgs ρL (forget root) args hL).2
    (ProcessArgs ρ root args h).2.
Proof. apply forms_agree. Qed.

End Forms_facts.

(** ** The column of the short descriptions *)

Section Columns_facts.
Context `{L : Layout} `{G : Globals}.




End Columns_facts.

(** ** What the earlier form keeps of the flag sets *)

Lemma height_then_child c k sc :
  Legacy.SubCommands c !! k = Some sc → (height_then sc < height_then c)%nat.
Proof.
  destruct c as [n fl subs]. simpl. intros Hk.
  enough (height_then sc ≤ map_fold (λ _ sc n, height_then sc `max` n) 0 subs)%nat
    by lia.
  revert k sc Hk.
  apply (map_fold_weak_ind
           (λ r (m : gmap string Legacy.CommandType),
              ∀ k sc, m !! k = Some sc → height_then sc ≤ r)%nat).
  - intros k sc. by rewrite lookup_empty.
  - intros i x m r Hi IH k sc. destruct (decide (i = k)) as [<-|Hne].
    + rewrite lookup_insert_eq. intros [= <-]. lia.
    + rewrite lookup_insert_ne by done. intros ?%IH. lia.
Qed.

Lemma Legacy_tree_ind (P : Legacy.CommandType → Prop) :
  (∀ c, (∀ k sc, Legacy.SubCommands c !! k = Some sc → P sc) → P c) → ∀ c, P c.
Proof.
  intros Hstep c. remember (height_then c) as n eqn:Hn.
  revert c Hn. induction n as [n IH] using lt_wf_ind. intros c ->.
  apply Hstep. intros k sc Hk. eapply IH; [|done]. by eapply height_then_child.
Qed.

Section Earlier_facts.
Context `{L : Layout}.
Import flag_spec flag_facts.

#[local] Instance kept_then_refl : Reflexive kept_then.
Proof. intros fs. repeat split. apply same_decls_refl. Qed.

#[local] Instance kept_then_trans : Transitive kept_then.
Proof.
  intros x y z (H1 & H2 & H3 & H4) (H1' & H2' & H3' & H4'). repeat split.
  - by rewrite H1'.
  - by rewrite H2'.
  - by rewrite H3'.
  - by etrans.
Qed.

#[local] Instance same_output_refl : Reflexive same_output.
Proof. by intros fs. Qed.

#[local] Instance same_output_trans : Transitive same_output.
Proof. unfold same_output. intros x y z H1 H2. by rewrite H2. Qed.

Lemma same_frame_kept_then f f' : same_frame f f' → kept_then f f' ∧ same_output f f'.
Proof. by intros (? & ? & ? & ? & ?). Qed.

Lemma store_insert_related (R : relation flag.FlagSet) `{!Reflexive R}
    (h : store) l fset fset' :
  h !! l = Some fset → R fset fset' →
  ∀ l0, option_Forall2 R (h !! l0) (<[l := fset']> h !! l0).
Proof.
  intros Hh HR l0. destruct (decide (l = l0)) as [<-|Hne].
  - rewrite lookup_insert_eq, Hh. by constructor.
  - rewrite lookup_insert_ne by done. destruct (h !! l0); by constructor.
Qed.

Lemma store_related_trans (R : relation flag.FlagSet) `{!Transitive R}
    (h1 h2 h3 : store) :
  (∀ l, option_Forall2 R (h1 !! l) (h2 !! l)) →
  (∀ l, option_Forall2 R (h2 !! l) (h3 !! l)) →
  ∀ l, option_Forall2 R (h1 !! l) (h3 !! l).
Proof.
  intros H12 H23 l. specialize (H12 l). specialize (H23 l).
  destruct H12; inversion H23; subst; constructor. by etrans.
Qed.

Lemma Legacy_ProcessArgs_keeps ρ node :
  ∀ args h o h',
  Legacy.ProcessArgs ρ node args h = (o, h') →
  (∀ l, option_Forall2 kept_then (h !! l) (h' !! l)) ∧
  (¬ asked_for_command o → ∀ l, option_Forall2 same_output (h !! l) (h' !! l)).
Proof.
  induction node as [node IH] using Legacy_tree_ind.
  intros args h o h' Hrun.
  rewrite Legacy_ProcessArgs_unfold in Hrun.
  assert (Hrefl : ∀ (R : relation flag.FlagSet), Reflexive R →
            ∀ l, option_Forall2 R (h !! l) (h !! l)).
  { intros R HR l. destruct (h !! l); by constructor. }
  destruct (Legacy.Flags node) as [l|] eqn:Hl; simpl in Hrun;
    [|simplify_eq; split; [|intros _]; by apply Hrefl; tc_solve].
  destruct (h !! l) as [fset|] eqn:Hh; simpl in Hrun;
    [|simplify_eq; split; [|intros _]; by apply Hrefl; tc_solve].
  destruct (flag.Parse args fset) as [fset' res] eqn:Hparse.
  apply Parse_spec in Hparse as (Hfr & _ & _).
  destruct (same_frame_kept_then _ _ Hfr) as [Hk Ho].
  pose proof (store_insert_related kept_then h l fset fset' Hh Hk) as Hk1.
  pose proof (store_insert_related same_output h l fset fset' Hh Ho) as Ho1.
  assert (Hhelp : Legacy.autoHelp ρ node (<[l:=fset']> h)
                  = Some (earlier_help ρ node fset',
                          <[l:=flag.SetOutput flag.writer_buffer fset']> h)).
  { rewrite (autoHelp_text ρ node (<[l:=fset']> h) l fset' Hl (lookup_insert_eq _ _ _)).
    by rewrite insert_insert_eq. }
  assert (Hk2 : ∀ l0, option_Forall2 kept_then (h !! l0)
                        (<[l:=flag.SetOutput flag.writer_buffer fset']> h !! l0)).
  { apply (store_insert_related kept_then h l fset _ Hh).
    etrans; [exact Hk|]. repeat split. apply same_decls_refl. }
  destruct res; simpl in Hrun; try (simplify_eq; split; [done|by intros _]).
  destruct (decide _).
  { simplify_eq. split; [done|by intros _]. }
  destruct (flag.Args fset') as [|r0 rest].
  { rewrite Hhelp in Hrun. simplify_eq. split; [done|].
    intros Hn. destruct Hn. simpl. discriminate. }
  destruct (Legacy.SubCommands node !! r0) as [sc|] eqn:Hsc.
  2:{ rewrite Hhelp in Hrun. simplify_eq. split; [done|].
      intros Hn. destruct Hn. simpl. discriminate. }
  destruct (Legacy.ProcessArgs ρ sc rest _) as [o1 h1] eqn:Hsub.
  destruct (IH _ _ Hsc _ _ _ _ Hsub) as [Hk3 Ho3].
  assert (h' = h1 ∧ (asked_for_command o ↔ asked_for_command o1)) as [-> Hiff].
  { destruct o1 as [cp [err|]| |]; by simplify_eq. }
  split.
  - by apply (store_related_trans kept_then h (<[l:=fset']> h) h1).
  - intros Hn. apply (store_related_trans same_output h (<[l:=fset']> h) h1);
      [done|]. apply Ho3. by rewrite <- Hiff.
Qed.

(** X15.  The earlier form leaves the name, the error handling and the
    [Usage] of every flag set as they were, and the declarations of the
    flags; unless it returns a missing or an invalid command, it leaves the
    output of every flag set as it was, too. *)
Theorem earlier_form_keeps_name_and_error_handling ρ node args h o h' :
  Legacy.ProcessArgs ρ node args h = (o, h') →
  (∀ l, option_Forall2 kept_then (h !! l) (h' !! l)) ∧
  (¬ asked_for_command o → ∀ l, option_Forall2 same_output (h !! l) (h' !! l)).
Proof. apply Legacy_ProcessArgs_keeps. Qed.

End Earlier_facts.

(** ** The example program *)

Module Program_facts.
Import flag_spec Program.

Section Main_facts.
Context `{L : Layout}.
#[local] Existing Instance initial_globals.
Variables float64_Set int_Set : string → string → string * option string.
Variable ρ : MapRange.

Abbreviation cf := Example.cf.
Abbreviation memory := (Example.memory float64_Set int_Set).
Abbreviation main := (Program.main float64_Set int_Set ρ).

Lemma flags_declared :
  ∃ f0, memory = {[ Example.flags_at := f0 ]} ∧ introspectable f0.
Proof.
  eexists. split; [vm_compute; reflexivity|].
  apply (bool_decide_unpack _). vm_compute. exact I.
Qed.

(** The root on arguments that do not open with a flag: the flag set takes
    them as they are, and the first of them selects the sub-command. *)
Lemma root_level argv :
  opens_with_flag argv = false →
  ∃ fset' help,
    ProcessArgs ρ cf argv memory
    = match argv with
      | [] =>
          (Return ["example"]
             (Some (mkError MissingCommandError
                      ("Missing COMMAND:" +:+ LF +:+ help) cf argv)),
           <[Example.flags_at := fset']> memory)
      | r0 :: rest =>
          match SubCommands cf !! r0 with
          | None =>
              (Return ["example"]
                 (Some (mkError InvalidCommandError
                          ("Invalid COMMAND: " +:+ r0 +:+ LF +:+ help) cf argv)),
               <[Example.flags_at := fset']> memory)
          | Some sc =>
              match ProcessArgs ρ sc rest (<[Example.flags_at := fset']> memory) with
              | (Return cp err, h) => (Return ("example" :: cp) err, h)
              | (o, h) => (o, h)
              end
          end
      end.
Proof.
  intros Hno. destruct flags_declared as (f0 & Hmem & Hintro).
  destruct (parser_facts.Parse_positionals_formal argv (prepared cf f0) Hno)
    as (fset' & Hparse & Hargs & Hformal).
  assert (Hintro' : introspectable fset').
  { unfold introspectable. by rewrite Hformal. }
  destruct (renderHelp_total ρ cf DefaultWidth
              (<[Example.flags_at := fset']> memory) Example.flags_at fset' eq_refl
              (lookup_insert_eq _ _ _) Hintro') as [help Hhelp].
  exists fset', help.
  rewrite ProcessArgs_unfold.
  rewrite (flags_at cf memory Example.flags_at f0 eq_refl)
    by (rewrite Hmem; apply lookup_singleton_eq).
  rewrite Hparse. cbv beta iota zeta. rewrite Hhelp, Hargs.
  destruct (decide _) as [Hsz|_]; [by vm_compute in Hsz|].
  done.
Qed.

Lemma main_dispatch argv :
  opens_with_flag argv = false →
  match argv with
  | [] => ∃ help, main argv = Failed ("Missing COMMAND:" +:+ LF +:+ help +:+ LF)
  | r0 :: rest =>
      if bool_decide (r0 ∈ ["deploy"; "create"; "update"])
      then opens_with_flag rest = false →
           main argv = Printed ("all the nonflags are: " +:+ " "
                                +:+ bracketed ("example" :: argv) +:+ LF)
      else if bool_decide (r0 ∈ ["help"; "show"; "deployments"; "list_artifacts"])
      then main argv = Crashed
      else ∃ help, main argv
                   = Failed ("Invalid COMMAND: " +:+ r0 +:+ LF +:+ help +:+ LF)
  end.
Proof.
  intros Hno. destruct (root_level argv Hno) as (fset' & help & Hrun).
  unfold Program.main. rewrite Hrun. clear Hrun.
  destruct argv as [|r0 rest]; [by exists help|].
  case_bool_decide as Hflags.
  { intros Hrest.
    assert (∃ sc, SubCommands cf !! r0 = Some sc ∧ Name sc = r0 ∧
                  Flags sc = Some Example.flags_at ∧ SubCommands sc = ∅)
      as (sc & -> & Hname & Hfl & Hleaf).
    { repeat (apply elem_of_cons in Hflags as [->|Hflags]);
        [eexists; split; [vm_compute; reflexivity|done]..|].
      by apply elem_of_nil in Hflags. }
    pose proof (leaf_returns_positionals ρ sc rest
                  (<[Example.flags_at := fset']> memory) Example.flags_at fset'
                  Hfl (lookup_insert_eq _ _ _) Hleaf Hrest) as Hsub.
    destruct (ProcessArgs ρ sc rest _) as [o h2]. simpl in Hsub. subst o.
    simpl. by rewrite Hname. }
  case_bool_decide as Hnil.
  { assert (∃ sc, SubCommands cf !! r0 = Some sc ∧ Flags sc = None)
      as (sc & -> & Hfl).
    { repeat (apply elem_of_cons in Hnil as [->|Hnil]);
        [eexists; split; [vm_compute; reflexivity|done]..|].
      by apply elem_of_nil in Hnil. }
    rewrite ProcessArgs_unfold, Hfl. done. }
  assert (SubCommands cf !! r0 = None) as ->.
  { unfold Example.cf. simpl.
    rewrite !lookup_insert_ne; [apply lookup_empty|intros <-; set_solver..]. }
  exists help. cbv beta iota delta [fst e]. by rewrite !append_assoc.
Qed.

(** X13.  The example program on arguments that do not open with a flag.
    Without arguments it fails with a text that opens [Missing COMMAND:].
    With [deploy], [create] or [update] first, and no flag right after, it
    prints the name of the program and all the arguments.  With [help],
    [show], [deployments] or [list_artifacts] first it crashes: these
    commands are built without a flag set.  With any other first argument it
    fails with a text that opens [Invalid COMMAND:] and names the
    argument. *)
Theorem example_program_dispatch argv :
  opens_with_flag argv = false →
  match argv with
  | [] => ∃ help, main argv = Failed ("Missing COMMAND:" +:+ LF +:+ help +:+ LF)
  | r0 :: rest =>
      if bool_decide (r0 ∈ ["deploy"; "create"; "update"])
      then opens_with_flag rest = false →
           main argv = Printed ("all the nonflags are: " +:+ " "
                                +:+ bracketed ("example" :: argv) +:+ LF)
      else if bool_decide (r0 ∈ ["help"; "show"; "deployments"; "list_artifacts"])
      then main argv = Crashed
      else ∃ help, main argv
                   = Failed ("Invalid COMMAND: " +:+ r0 +:+ LF +:+ help +:+ LF)
  end.
Proof. apply main_dispatch. Qed.

End Main_facts.

End Program_facts.

(** ** Further cases *)

Module More_cases.
Import Reference Sample Variants Cases.


Lemma akin_stores_continued (h : store) :
  akin_stores ((λ f, flag.Init (flag.name f) flag.ContinueOnError f) <$> h) h.
Proof. intros l. rewrite lookup_fmap. destruct (h !! l); by constructor. Qed.

Lemma memory_introspectable :
  ∀ l fs, memory !! l = Some fs → flag_spec.introspectable fs.
Proof.
  change (map_Forall (λ _ fs, flag_spec.introspectable fs) memory). by_evaluation.
Qed.

Lemma success_ends_at_a_leaf_witness :
  ∃ leaf l fset',
    last (trail root deep_args memory) = Some leaf ∧ SubCommands leaf = ∅ ∧
    Flags leaf = Some l ∧ deep_run.2 !! l = Some fset' ∧
    ["root"; "deploy"; "status"; "extra"]
    = (Name <$> trail root deep_args memory) ++ flag.Args fset' ∧
    flag.Args fset' `suffix_of` deep_args.
Proof.
  apply (success_ends_at_a_leaf ascending root deep_args memory
           ["root"; "deploy"; "status"; "extra"] (deep_run.2)).
  vm_compute. reflexivity.
Defined.

Lemma path_opens_with_root_and_is_bounded_witness :
  ∃ rest, ["root"; "deploy"] = Name root :: rest ∧
          (length rest ≤ length bogus_args)%nat.
Proof.
  apply (path_opens_with_root_and_is_bounded ascending root bogus_args memory
           ["root"; "deploy"] (Some bogus_error) (bogus_run.2)).
  vm_compute. reflexivity.
Defined.

Lemma error_kind_tells_the_cause_witness :
  ∃ h_k l fset fset' res help,
    Flags (c bogus_error) = Some l ∧ h_k !! l = Some fset ∧
    flag.Parse (a bogus_error) (prepared (c bogus_error) fset) = (fset', res) ∧
    bogus_run.2 = <[l := fset']> h_k ∧
    renderHelp ascending (c bogus_error) DefaultWidth (bogus_run.2) = Some help ∧
    error_cause bogus_error fset' res help.
Proof.
  apply (error_kind_tells_the_cause ascending root bogus_args memory
           ["root"; "deploy"] bogus_error (bogus_run.2)).
  vm_compute. reflexivity.
Defined.

Lemma call_returns_with_flag_sets_present_witness :
  ∃ path err, (ProcessArgs ascending root deep_args memory).1 = Return path err.
Proof.
  apply (call_returns_with_flag_sets_present ascending root deep_args memory).
  - intros n Hn. apply list_elem_of_In in Hn. vm_compute in Hn.
    destruct Hn as [<-|[<-|[<-|[]]]]; eexists _, _; split; reflexivity.
  - exact memory_introspectable.
Defined.

Lemma last_visited_command_marks_its_flag_set_witness :
  ∃ fs', shared_run.2 !! Example.flags_at = Some fs' ∧
         visited_state example_deploy fs'.
Proof.
  apply (last_visited_command_marks_its_flag_set ascending Example.cf shared_args
           (Example.memory text_Set text_Set) (shared_run.1) (shared_run.2)
           example_deploy Example.flags_at).
  - vm_compute. reflexivity.
  - vm_compute. reflexivity.
  - reflexivity.
  - vm_compute. eauto.
Defined.

Lemma plain_arguments_come_back_witness :
  ["root"; "deploy"; "status"; "a"] `prefix_of` Name root :: ["deploy"; "status"; "a"] ∧
  (@None Error = None →
   ["root"; "deploy"; "status"; "a"] = Name root :: ["deploy"; "status"; "a"]) ∧
  ∀ l, flag.formal <$> (ProcessArgs ascending root ["deploy"; "status"; "a"] memory).2 !! l
       = flag.formal <$> memory !! l.
Proof.
  apply (plain_arguments_come_back ascending root ["deploy"; "status"; "a"] memory
           ["root"; "deploy"; "status"; "a"] None
           ((ProcessArgs ascending root ["deploy"; "status"; "a"] memory).2)).
  - reflexivity.
  - repeat constructor.
  - vm_compute. reflexivity.
Defined.

Lemma help_is_the_same_after_a_call_witness :
  renderHelp ascending root 80 (deep_run.2) = renderHelp ascending root 80 memory.
Proof.
  apply (help_is_the_same_after_a_call ascending ascending root deep_args memory
           (deep_run.1) (deep_run.2) root 80).
  vm_compute. reflexivity.
Defined.


Lemma help_reads_names_and_short_descriptions_witness :
  renderHelp ascending root_elsewhere 80 memory = renderHelp ascending root 80 memory.
Proof.
  apply (help_reads_names_and_short_descriptions ascending root root_elsewhere 80 memory).
  - exact ascending_sound.
  - reflexivity.
  - reflexivity.
  - reflexivity.
  - right. reflexivity.
  - intros i. vm_compute. reflexivity.
Defined.

Lemma earlier_form_missing_or_invalid_witness :
  let fset' := (flag.Parse [] deploy_flags).1 in
  Legacy.ProcessArgs ascending legacy_app [] memory
  = (Legacy.Return ["app"]
       (Some (Legacy.mkError MissingCommandError
                ("Missing COMMAND:" +:+ LF +:+ earlier_help ascending legacy_app fset')
                legacy_app [])),
     <[2%positive := flag.SetOutput flag.writer_buffer fset']> memory).
Proof.
  apply (earlier_form_missing_or_invalid ascending legacy_app [] memory 2%positive
           deploy_flags (flag.Parse [] deploy_flags).1).
  - reflexivity.
  - reflexivity.
  - vm_compute. discriminate.
  - reflexivity.
Defined.

Lemma the_two_forms_resolve_alike_witness :
  agree (Legacy.ProcessArgs ascending (forget root) deep_args memory_then).1
    (ProcessArgs ascending root deep_args memory).1 ∧
  akin_stores (Legacy.ProcessArgs ascending (forget root) deep_args memory_then).2
    (ProcessArgs ascending root deep_args memory).2.
Proof.
  apply (the_two_forms_resolve_alike ascending ascending root deep_args
           memory_then memory).
  - exact (akin_stores_continued memory).
  - exact memory_introspectable.
Defined.

Lemma example_program_dispatch_witness :
  flag_spec.opens_with_flag ["deploy"; "app"; "r1"] = false ∧
  flag_spec.opens_with_flag ["app"; "r1"] = false ∧
  Program.main text_Set text_Set ascending ["deploy"; "app"; "r1"]
  = Program.Printed ("all the nonflags are: " +:+ " "
                     +:+ Program.bracketed ["example"; "deploy"; "app"; "r1"] +:+ LF).
Proof.
  split; [reflexivity|]. split; [reflexivity|].
  exact (Program_facts.example_program_dispatch text_Set text_Set ascending
           ["deploy"; "app"; "r1"] eq_refl eq_refl).
Defined.


Lemma earlier_form_keeps_name_and_error_handling_witness :
  (∀ l, option_Forall2 kept_then (memory !! l)
          ((Legacy.ProcessArgs ascending legacy_app ["run"; "x"] memory).2 !! l)) ∧
  (¬ asked_for_command (Legacy.Return ["app"; "run"; "x"] None) →
   ∀ l, option_Forall2 same_output (memory !! l)
          ((Legacy.ProcessArgs ascending legacy_app ["run"; "x"] memory).2 !! l)).
Proof.
  apply (earlier_form_keeps_name_and_error_handling ascending legacy_app ["run"; "x"]
           memory (Legacy.Return ["app"; "run"; "x"] None)
           ((Legacy.ProcessArgs ascending legacy_app ["run"; "x"] memory).2)).
  vm_compute. reflexivity.
Defined.

(** *** Where the code fails its own documentation *)

(** C2.  A command with a sub-command, on a flag set that [Var] accepted
    with a value without [Get]: the arguments parse, none is left or the
    one left is no sub-command, and the call panics in [renderHelp] where a
    [MissingCommandError] or an [InvalidCommandError] is due. *)
Lemma missing_or_invalid_panics_on_plain_value :
  SubCommands plain_app ≠ ∅ ∧
  (∃ fset', flag.Parse [] (prepared plain_app plain_flags) = (fset', flag.parse_ok) ∧
            flag.Args fset' = []) ∧
  ProcessArgs ascending plain_app [] plain_memory
  = (Panic, <[plain_at := (flag.Parse [] (prepared plain_app plain_flags)).1]>
              plain_memory) ∧
  (∃ fset', flag.Parse ["z"] (prepared plain_app plain_flags) = (fset', flag.parse_ok) ∧
            flag.Args fset' = ["z"]) ∧
  SubCommands plain_app !! "z" = None ∧
  ProcessArgs ascending plain_app ["z"] plain_memory
  = (Panic, <[plain_at := (flag.Parse ["z"] (prepared plain_app plain_flags)).1]>
              plain_memory).
Proof.
  split; [vm_compute; discriminate|].
  split; [eexists; split; vm_compute; reflexivity|].
  split; [vm_compute; reflexivity|].
  split; [eexists; split; vm_compute; reflexivity|].
  split; vm_compute; reflexivity.
Qed.

(** C8.  [renderHelp] on that command, which has its flag set: at every
    width it panics at the assertion [f.Value.(flag.Getter)], before the
    switch whose default arm labels a value of any other kind [VALUE]. *)
Lemma renderHelp_panics_on_plain_value :
  declare [ (opaque_value "info", "level", "how much to log") ]
    (flag.NewFlagSet "plain" flag.ContinueOnError) = Some plain_flags ∧
  Flags plain_app = Some plain_at ∧ plain_memory !! plain_at = Some plain_flags ∧
  (∀ width, renderHelp ascending plain_app width plain_memory = None) ∧
  ∀ type_name, type_label (flag.TOther type_name) = "VALUE".
Proof.
  split; [vm_compute; reflexivity|]. split; [reflexivity|].
  split; [vm_compute; reflexivity|]. split; [|done].
  intros width.
  apply (renderHelp_panics_without_getter ascending plain_app width plain_memory
           plain_at plain_flags
           (flag.mkFlag "level" "how much to log" (opaque_value "info") "info"));
    [reflexivity|vm_compute; reflexivity| |reflexivity].
  vm_compute. apply list_elem_of_In. left. reflexivity.
Qed.

(** The runs of the witnesses, evaluated. *)
Example example_prints_the_words :
  Program.main text_Set text_Set ascending ["deploy"; "app"; "r1"]
  = Program.Printed ("all the nonflags are:  [example deploy app r1]" +:+ LF).
Proof. vm_compute. reflexivity. Qed.

Example shared_flag_set_is_named_after_the_last_command :
  flag.name <$> shared_run.2 !! Example.flags_at = Some "deploy".
Proof. vm_compute. reflexivity. Qed.

Example the_two_forms_on_the_deep_run :
  (Legacy.ProcessArgs ascending (forget root) deep_args memory_then).1
  = Legacy.Return ["root"; "deploy"; "status"; "extra"] None.
Proof. vm_compute. reflexivity. Qed.

End More_cases.
